(** * The competitor release monitor of [app_store_bot.py]

    A shallow embedding of the polling cycle ([CompetitorMonitor.check_for_updates]),
    of the lookup of one app ([AppStoreMonitor.get_app_info]) and of the Slack
    message builder ([SlackNotifier.send_consolidated_notification]), followed
    by the properties of the cycle and of the message layout. *)

From Stdlib Require DecimalNat.
From stdpp Require Import gmap list strings.

(** ** Python strings

    A Python [str] is a sequence of Unicode code points: [len] counts code
    points and a slice [s[:k]] keeps the first [k] of them. *)

Abbreviation pystr := (list N).

(** The code points of an ASCII literal of the source. *)
Definition lit (s : string) : pystr :=
  Ascii.N_of_ascii <$> String.list_ascii_of_string s.
Arguments lit : simpl never.

(** [str.isspace] on one character, the test [str.strip()] applies to both
    ends of the string. *)
Definition isspace (c : N) : bool :=
  (((0x09 <=? c) && (c <=? 0x0D)) || ((0x1C <=? c) && (c <=? 0x20))
  || (c =? 0x85) || (c =? 0xA0) || (c =? 0x1680)
  || ((0x2000 <=? c) && (c <=? 0x200A))
  || (c =? 0x2028) || (c =? 0x2029) || (c =? 0x202F) || (c =? 0x205F)
  || (c =? 0x3000))%N.

Fixpoint lstrip (s : pystr) : pystr :=
  match s with
  | c :: s' => if isspace c then lstrip s' else s
  | [] => []
  end.

Definition rstrip (s : pystr) : pystr := reverse (lstrip (reverse s)).

Definition strip (s : pystr) : pystr := rstrip (lstrip s).

(** Truth value of a string: the empty string is false. *)
Definition truthy (s : pystr) : bool :=
  match s with [] => false | _ => true end.

(** [str(n)] for a length. *)
Fixpoint uint_chars (d : Decimal.uint) : pystr :=
  match d with
  | Decimal.Nil => []
  | Decimal.D0 d => 0x30%N :: uint_chars d
  | Decimal.D1 d => 0x31%N :: uint_chars d
  | Decimal.D2 d => 0x32%N :: uint_chars d
  | Decimal.D3 d => 0x33%N :: uint_chars d
  | Decimal.D4 d => 0x34%N :: uint_chars d
  | Decimal.D5 d => 0x35%N :: uint_chars d
  | Decimal.D6 d => 0x36%N :: uint_chars d
  | Decimal.D7 d => 0x37%N :: uint_chars d
  | Decimal.D8 d => 0x38%N :: uint_chars d
  | Decimal.D9 d => 0x39%N :: uint_chars d
  end.

Definition str_of_nat (n : nat) : pystr := uint_chars (Nat.to_uint n).

Definition str_of_N (n : N) : pystr := uint_chars (N.to_uint n).

(** Zero padding to a minimal width, as [strftime] does for its numeric
    fields. *)
Definition zfill (width : nat) (s : pystr) : pystr :=
  replicate (width - length s) 0x30%N ++ s.

(** ** Data model *)

(** The lookup service reports release dates in UTC (suffix [Z], which
    [get_app_info] rewrites to [+00:00]); a [datetime] is modelled by its UTC
    calendar fields, on which [==] is field-wise equality. *)
Record datetime := mk_datetime {
  year : N; month : N; day : N;
  hour : N; minute : N; second : N; microsecond : N
}.

#[export] Instance datetime_eq_dec : EqDecision datetime.
Proof. solve_decision. Defined.

(** [d.strftime('%Y-%m-%d %H:%M UTC')]. *)
Definition strftime (d : datetime) : pystr :=
  zfill 4 (str_of_N (year d)) ++ lit "-" ++ zfill 2 (str_of_N (month d))
  ++ lit "-" ++ zfill 2 (str_of_N (day d)) ++ lit " "
  ++ zfill 2 (str_of_N (hour d)) ++ lit ":" ++ zfill 2 (str_of_N (minute d))
  ++ lit " UTC".

(** The dataclass [AppInfo].  [_is_new_release] is the attribute that
    [check_for_updates] attaches to the object after construction: it is not
    a dataclass field, and [None] stands for an object without it. *)
Record AppInfo := mk_AppInfo {
  app_id : pystr;
  name : pystr;
  developer : pystr;
  current_version : pystr;
  last_updated : datetime;
  store_url : pystr;
  release_notes : pystr;
  _is_new_release : option bool
}.

#[export] Instance AppInfo_eq_dec : EqDecision AppInfo.
Proof. solve_decision. Defined.

(** The tuple of declared fields, which the generated [__eq__] of the
    dataclass compares. *)
Definition astuple (a : AppInfo) :=
  (app_id a, name a, developer a, current_version a,
   last_updated a, store_url a, release_notes a).

(** [a != b] on two [AppInfo] objects. *)
Definition AppInfo_ne (a b : AppInfo) : bool :=
  bool_decide (astuple a ≠ astuple b).

(** [app_info._is_new_release = flag]. *)
Definition set_is_new_release (a : AppInfo) (flag : bool) : AppInfo :=
  {| app_id := app_id a; name := name a; developer := developer a;
     current_version := current_version a; last_updated := last_updated a;
     store_url := store_url a; release_notes := release_notes a;
     _is_new_release := Some flag |}.

(** [hasattr(app, '_is_new_release') and app._is_new_release]. *)
Definition is_new (a : AppInfo) : bool :=
  match _is_new_release a with
  | Some flag => flag
  | None => false
  end.

(** ** [AppStoreMonitor.get_app_info] *)

(** The value under [currentVersionReleaseDate]: the key may be missing,
    hold a text [datetime.fromisoformat] rejects, or hold a date. *)
Inductive release_date :=
  | DateMissing
  | DateInvalid
  | DateParsed (d : datetime).

(** The first element of [results] in the lookup document; a field is [None]
    when its key is missing. *)
Record app_data := mk_app_data {
  trackName : option pystr;
  artistName : option pystr;
  version : option pystr;
  currentVersionReleaseDate : release_date;
  trackViewUrl : option pystr;
  releaseNotes : option pystr
}.

(** What one call of the lookup API yields. *)
Inductive lookup_reply :=
  | RequestFailed
      (* [session.get], [raise_for_status] or [response.json] raises *)
  | LookupJson (resultCount : option N) (results : list app_data).

Definition get_app_info (id : pystr) (reply : lookup_reply) : option AppInfo :=
  match reply with
  | RequestFailed => None
  | LookupJson resultCount results =>
      if bool_decide (default 0%N resultCount = 0%N) then None
      else
        match results with
        | [] => None
        | d :: _ =>
            match trackName d, artistName d, version d,
                  currentVersionReleaseDate d, trackViewUrl d with
            | Some n, Some a, Some v, DateParsed t, Some u =>
                Some {| app_id := id; name := n; developer := a;
                        current_version := v; last_updated := t;
                        store_url := u;
                        release_notes := default [] (releaseNotes d);
                        _is_new_release := None |}
            | _, _, _, _, _ => None
            end
        end
  end.

(** ** Slack messages *)

Inductive text_object :=
  | PlainText (text : pystr)
  | Mrkdwn (text : pystr).

Inductive block :=
  | Header (text : text_object)
  | SectionFields (fields : list text_object)
  | SectionText (text : text_object)
  | Divider.

Record message := mk_message {
  channel : pystr;
  text : pystr;
  blocks : list block
}.

#[export] Instance text_object_eq_dec : EqDecision text_object.
Proof. solve_decision. Defined.

#[export] Instance block_eq_dec : EqDecision block.
Proof. solve_decision. Defined.

#[export] Instance message_eq_dec : EqDecision message.
Proof. solve_decision. Defined.

(** The two icon literals of the source, character by character as the
    file spells them. *)
Definition icon_new : pystr := [0xF0; 0x178; 0x2020; 0x2022]%N.
Definition icon_phone : pystr := [0xF0; 0x178; 0x201C; 0xB1]%N.

Definition newline : pystr := [0x0A]%N.

(** The local [emoji] of the notifier: [new_releases] is the sublist of the
    apps carrying a true flag, and a non-empty list is true. *)
Definition emoji_of (updated_apps : list AppInfo) : pystr :=
  let new_releases := filter (λ app, is_new app = true) updated_apps in
  match new_releases with [] => icon_phone | _ => icon_new end.

Definition title_of (updated_apps : list AppInfo) : pystr :=
  emoji_of updated_apps ++ lit " Competitor App Updates ("
    ++ str_of_nat (length updated_apps) ++ lit ")".

Definition app_section (app_info : AppInfo) : block :=
  let app_emoji := if is_new app_info then icon_new else icon_phone in
  SectionFields
    [ Mrkdwn (app_emoji ++ lit " *" ++ name app_info ++ lit "*" ++ newline
                ++ developer app_info);
      Mrkdwn (lit "*Version:* " ++ current_version app_info ++ newline
                ++ lit "*Updated:* " ++ strftime (last_updated app_info));
      Mrkdwn (lit "<" ++ store_url app_info ++ lit "|" ++ icon_phone
                ++ lit " App Store>") ].

Definition notes_section (app_info : AppInfo) : block :=
  let notes := release_notes app_info in
  SectionText
    (Mrkdwn (lit "*What's New:*" ++ newline ++ lit "```" ++ take 500 notes
               ++ (if bool_decide (500 < length notes) then lit "..." else [])
               ++ lit "```")).

Arguments notes_section : simpl never.

(** One turn of the loop over [updated_apps]: the blocks appended for
    [app_info].  [updated_apps[-1]] is read inside the loop only, where the
    list is not empty. *)
Definition add_app (updated_apps : list AppInfo)
    (blocks : list block) (app_info : AppInfo) : list block :=
  let blocks := blocks ++ [app_section app_info] in
  let blocks :=
    if truthy (release_notes app_info)
       && truthy (strip (release_notes app_info))
    then blocks ++ [notes_section app_info] else blocks in
  if AppInfo_ne app_info (default app_info (last updated_apps))
  then blocks ++ [Divider] else blocks.

Definition blocks_of (updated_apps : list AppInfo) : list block :=
  foldl (add_app updated_apps)
        [Header (PlainText (title_of updated_apps))] updated_apps.

(** The dictionary handed to [chat_postMessage]. *)
Definition message_of (chan : pystr) (updated_apps : list AppInfo) : message :=
  {| channel := chan;
     text := title_of updated_apps;
     blocks := blocks_of updated_apps |}.

(** ** State, exceptions and the monad of the bot *)

(** [last_versions] is the dictionary held by the monitor, [last_check_file]
    the mapping stored in [last_check.json], [posted] the messages handed to
    [chat_postMessage] so far, in call order. *)
Record state := mk_state {
  last_versions : gmap pystr pystr;
  last_check_file : gmap pystr pystr;
  posted : list message
}.

Inductive exn :=
  | SlackApiError
  | OtherError.

Inductive outcome (A : Type) :=
  | Returned (a : A)
  | Raised (e : exn).
Arguments Returned {A} a.
Arguments Raised {A} e.

Definition M (A : Type) : Type := state → outcome A * state.

#[export] Instance M_ret : MRet M := λ A a s, (Returned a, s).

#[export] Instance M_bind : MBind M := λ A B f m s,
  match m s with
  | (Returned a, s') => f a s'
  | (Raised e, s') => (Raised e, s')
  end.

Definition raise {A} (e : exn) : M A := λ s, (Raised e, s).

(** [try: body except E: handler], where [catches] tells the exceptions
    the clause names. *)
Definition try_except {A} (body : M A) (catches : exn → bool)
    (handler : M A) : M A := λ s,
  match body s with
  | (Raised e, s') => if catches e then handler s' else (Raised e, s')
  | r => r
  end.

Definition gets {A} (f : state → A) : M A := λ s, (Returned (f s), s).

Definition modify (f : state → state) : M unit := λ s, (Returned (), f s).

(** ** [SlackNotifier.send_consolidated_notification] *)

(** How the Slack client answers a call of [chat_postMessage]: it returns,
    raises [SlackApiError], or raises another exception (the transport
    failed before an API answer arrived). *)
Inductive post_reply :=
  | PostOk
  | PostApiError
  | PostOtherError.

Definition chat_postMessage (slack : post_reply) (msg : message) : M unit :=
  modify (λ s, {| last_versions := last_versions s;
                  last_check_file := last_check_file s;
                  posted := posted s ++ [msg] |});;
  match slack with
  | PostOk => mret ()
  | PostApiError => raise SlackApiError
  | PostOtherError => raise OtherError
  end.

Definition is_SlackApiError (e : exn) : bool :=
  match e with SlackApiError => true | OtherError => false end.

Definition send_consolidated_notification (slack : post_reply)
    (chan : pystr) (updated_apps : list AppInfo) : M unit :=
  try_except
    (match updated_apps with
     | [] => mret ()
     | _ => chat_postMessage slack (message_of chan updated_apps)
     end)
    is_SlackApiError
    (mret ()).

(** The legacy entry point. *)
Definition send_notification (slack : post_reply) (chan : pystr)
    (app_info : AppInfo) (is_new_release : bool) : M unit :=
  send_consolidated_notification slack chan [app_info].

(** ** [CompetitorMonitor] *)

(** [save_last_check]: the dictionary replaces the content of the file.  The
    write itself is taken to succeed; its [except] clause only logs. *)
Definition save_last_check : M unit :=
  modify (λ s, {| last_versions := last_versions s;
                  last_check_file := last_versions s;
                  posted := posted s |}).

(** [self.last_versions[app_id] = v]. *)
Definition store_version (id v : pystr) : M unit :=
  modify (λ s, {| last_versions := <[id := v]> (last_versions s);
                  last_check_file := last_check_file s;
                  posted := posted s |}).

(** One turn of the loop over [self.competitors]: [call] pairs the tracked
    id with what the lookup API answers to this call. *)
Definition check_one (updated_apps : list AppInfo)
    (call : pystr * lookup_reply) : M (list AppInfo) :=
  match get_app_info call.1 call.2 with
  | None => mret updated_apps
  | Some app_info =>
      last_version ← gets (λ s, last_versions s !! call.1);
      if bool_decide (last_version ≠ Some (current_version app_info)) then
        let is_new_release := bool_decide (last_version ≠ None) in
        let app_info := set_is_new_release app_info is_new_release in
        store_version call.1 (current_version app_info);;
        mret (updated_apps ++ [app_info])
      else mret updated_apps
  end.

Fixpoint for_each {A B} (body : B → A → M B) (acc : B) (l : list A) : M B :=
  match l with
  | [] => mret acc
  | x :: l' => acc' ← body acc x; for_each body acc' l'
  end.

(** The loop of [check_for_updates]: the list [updated_apps] it builds. *)
Definition collect_updates (calls : list (pystr * lookup_reply))
    : M (list AppInfo) :=
  for_each check_one [] calls.

Definition check_for_updates (slack : post_reply) (chan : pystr)
    (calls : list (pystr * lookup_reply)) : M unit :=
  updated_apps ← collect_updates calls;
  match updated_apps with
  | [] => mret ()
  | _ =>
      send_consolidated_notification slack chan updated_apps;;
      save_last_check
  end.

(** ** Vocabulary of the properties *)

(** The kind of a change.  The loop sets the flag [_is_new_release] to
    [last_version is not None]: true for an app with a stored version, false
    for an app seen for the first time. *)
Inductive kind :=
  | FIRST_OBSERVATION
  | NEW_RELEASE.

Definition kind_of (r : AppInfo) : kind :=
  if is_new r then NEW_RELEASE else FIRST_OBSERVATION.

(** The record one turn of the loop appends when the dictionary is [vs],
    and the dictionary after that turn. *)
Definition change_of (vs : gmap pystr pystr) (call : pystr * lookup_reply)
    : option AppInfo :=
  match get_app_info call.1 call.2 with
  | Some app_info =>
      if bool_decide (vs !! call.1 ≠ Some (current_version app_info))
      then Some (set_is_new_release app_info (bool_decide (vs !! call.1 ≠ None)))
      else None
  | None => None
  end.

Definition versions_after (vs : gmap pystr pystr)
    (call : pystr * lookup_reply) : gmap pystr pystr :=
  match change_of vs call with
  | Some r => <[call.1 := current_version r]> vs
  | None => vs
  end.

Fixpoint changes_from (vs : gmap pystr pystr)
    (calls : list (pystr * lookup_reply)) : list AppInfo :=
  match calls with
  | [] => []
  | call :: calls' =>
      option_list (change_of vs call)
        ++ changes_from (versions_after vs call) calls'
  end.

Fixpoint versions_from (vs : gmap pystr pystr)
    (calls : list (pystr * lookup_reply)) : gmap pystr pystr :=
  match calls with
  | [] => vs
  | call :: calls' => versions_from (versions_after vs call) calls'
  end.

(** The state a cycle leaves when the loop has run: only the dictionary has
    moved. *)
Definition with_versions (s : state) (vs : gmap pystr pystr) : state :=
  {| last_versions := vs;
     last_check_file := last_check_file s;
     posted := posted s |}.

(** The text of a release-notes block, and the blocks an app contributes. *)
Definition notes_text (b : block) : option pystr :=
  match b with
  | SectionText (Mrkdwn t) => Some t
  | _ => None
  end.

(** The blocks that show one app: its section, then its release notes when
    they are not blank. *)
Definition note_blocks (a : AppInfo) : list block :=
  if bool_decide (strip (release_notes a) ≠ []) then [notes_section a] else [].

Definition sections_of (a : AppInfo) : list block :=
  app_section a :: note_blocks a.

Definition is_divider (b : block) : bool :=
  match b with Divider => true | _ => false end.

Definition is_app_section (b : block) : bool :=
  match b with SectionFields _ => true | _ => false end.

(** The text a release-notes block is expected to carry. *)
Definition expected_notes (notes : pystr) : pystr :=
  lit "*What's New:*" ++ newline ++ lit "```"
    ++ (if decide (500 < length notes) then take 500 notes ++ lit "..."
        else notes)
    ++ lit "```".

(** The state after a call of [chat_postMessage] with [msg], and after
    [save_last_check]. *)
Definition with_post (s : state) (msg : message) : state :=
  {| last_versions := last_versions s;
     last_check_file := last_check_file s;
     posted := posted s ++ [msg] |}.

Definition committed (s : state) : state :=
  {| last_versions := last_versions s;
     last_check_file := last_versions s;
     posted := posted s |}.

(** ** Sample runs *)

Module Sample.

Definition id_A : pystr := lit "544007664".
Definition id_B : pystr := lit "389801252".
Definition id_C : pystr := lit "835599320".

Definition released : datetime :=
  {| year := 2024; month := 1; day := 15;
     hour := 8; minute := 5; second := 30; microsecond := 0 |}.

(** A well-formed lookup document for one app. *)
Definition found (nm ver : string) (notes : pystr) : lookup_reply :=
  LookupJson (Some 1%N)
    [ {| trackName := Some (lit nm);
         artistName := Some (lit "Acme Inc.");
         version := Some (lit ver);
         currentVersionReleaseDate := DateParsed released;
         trackViewUrl := Some (lit "https://apps.apple.com/app/id1");
         releaseNotes := Some notes |} ].

Definition not_found : lookup_reply := LookupJson (Some 0%N) [].

Definition chan : pystr := lit "#releases".

Definition fresh_state : state :=
  {| last_versions := ∅; last_check_file := ∅; posted := [] |}.

(** The store holds version 1.0 of the first app. *)
Definition one_known : state :=
  {| last_versions := {[ id_A := lit "1.0" ]};
     last_check_file := {[ id_A := lit "1.0" ]};
     posted := [] |}.

(** First app unchanged, second app new to the store, third lookup fails. *)
Definition mixed_calls : list (pystr * lookup_reply) :=
  [ (id_A, found "Alpha" "1.0" (lit "Bug fixes"));
    (id_B, found "Beta" "2.3" (lit "New look"));
    (id_C, RequestFailed) ].


Definition all_failing : list (pystr * lookup_reply) :=
  [ (id_A, RequestFailed); (id_B, not_found);
    (id_C, LookupJson None []) ].

Definition steady_calls : list (pystr * lookup_reply) :=
  [ (id_A, found "Alpha" "1.1" (lit "Bug fixes"));
    (id_B, found "Beta" "2.3" (lit "New look")) ].

Definition steady_version (id : pystr) : pystr :=
  if decide (id = id_A) then lit "1.1" else lit "2.3".

Definition app (nm ver : string) (notes : pystr) (flag : bool) : AppInfo :=
  {| app_id := id_A; name := lit nm; developer := lit "Acme Inc.";
     current_version := lit ver; last_updated := released;
     store_url := lit "https://apps.apple.com/app/id1";
     release_notes := notes; _is_new_release := Some flag |}.

(** The same record listed twice. *)
Definition twins : list AppInfo :=
  [ app "Alpha" "1.1" [] true; app "Alpha" "1.1" [] true ].

(** The same id tracked three times, the lookups answering 1.0, 1.1 and
    1.0 again. *)
Definition flapping_calls : list (pystr * lookup_reply) :=
  [ (id_A, found "Alpha" "1.0" []);
    (id_A, found "Alpha" "1.1" []);
    (id_A, found "Alpha" "1.0" []) ].

Definition long_notes : pystr := replicate 600 0x61%N.

Definition first_seen : AppInfo := app "Alpha" "1.0" [] false.
Definition released_again : AppInfo := app "Beta" "2.0" [] true.

End Sample.

(** ** Files, environment and the run of the bot *)

(** A JSON file as [load_competitors] and [load_last_check] meet it: absent,
    present but raising in [open], [json.load] or the access that follows,
    or holding a document of the expected shape. *)
Inductive json_file (A : Type) :=
  | FileMissing
  | FileUnreadable
  | FileJson (content : A).
Arguments FileMissing {A}.
Arguments FileUnreadable {A}.
Arguments FileJson {A} content.

(** The document of [competitors.json]; [app_ids] is [None] when the key is
    missing. *)
Record competitors_json := mk_competitors_json {
  app_ids : option (list pystr)
}.

Definition default_competitors : list pystr :=
  [ lit "544007664"; lit "389801252"; lit "835599320" ].

Definition load_competitors (f : json_file competitors_json) : list pystr :=
  match f with
  | FileJson data => default [] (app_ids data)
  | FileMissing => default_competitors
  | FileUnreadable => []
  end.

Definition load_last_check (f : json_file (gmap pystr pystr))
    : gmap pystr pystr :=
  match f with
  | FileJson versions => versions
  | FileMissing => ∅
  | FileUnreadable => ∅
  end.

(** What [main] and [CompetitorMonitor.__init__] read when the process
    starts. *)
Record world := mk_world {
  SLACK_BOT_TOKEN : option pystr;
  SLACK_CHANNEL : option pystr;
  competitors_file : json_file competitors_json;
  last_check : json_file (gmap pystr pystr)
}.

(** [not os.getenv(key)]: the variable is unset or empty. *)
Definition unset (v : option pystr) : bool :=
  negb (truthy (default [] v)).

(** The state in which a new monitor starts: [__init__] loads the dictionary
    from the file.  In the states of a run [last_check_file] stands for the
    mapping [load_last_check] reads from the file, and [log] for the messages
    handed to the Slack client before. *)
Definition boot (w : world) (log : list message) : state :=
  {| last_versions := load_last_check (last_check w);
     last_check_file := load_last_check (last_check w);
     posted := log |}.


(** What the outside answers during one cycle: the lookup API to the call
    made for the tracked id at each position, and the Slack client. *)
Record round := mk_round {
  lookup_answer : nat → lookup_reply;
  slack_answer : post_reply
}.

Definition calls_of (competitors : list pystr) (r : round)
    : list (pystr * lookup_reply) :=
  imap (λ i id, (id, lookup_answer r i)) competitors.

(** The cycles [main] runs, the initial check first and then one per firing
    of the schedule; an exception leaves [main], so the cycles after it do
    not run.  The waiting between the cycles is not modelled. *)
Fixpoint run_cycles (chan : pystr) (competitors : list pystr)
    (rounds : list round) : M unit :=
  match rounds with
  | [] => mret ()
  | r :: rounds' =>
      check_for_updates (slack_answer r) chan (calls_of competitors r);;
      run_cycles chan competitors rounds'
  end.

(** [main], followed for the cycles of [rounds].  Without a token or a
    channel it returns before a monitor exists. *)
Definition main (w : world) (log : list message) (rounds : list round)
    : outcome unit * state :=
  if unset (SLACK_BOT_TOKEN w) then (Returned (), boot w log)
  else if unset (SLACK_CHANNEL w) then (Returned (), boot w log)
  else run_cycles (default [] (SLACK_CHANNEL w))
         (load_competitors (competitors_file w)) rounds (boot w log).


(** ** [find_app_id.py] *)

Module FindAppId.

(** The dictionary both functions of the script build for an app. *)
Record app_dict := mk_app_dict {
  d_name : pystr;
  d_developer : pystr;
  d_version : pystr;
  d_app_id : pystr
}.

Definition get_app_info (id : pystr) (reply : lookup_reply)
    : option app_dict :=
  match reply with
  | RequestFailed => None
  | LookupJson resultCount results =>
      if bool_decide (default 0%N resultCount = 0%N) then None
      else
        match results with
        | [] => None
        | d :: _ =>
            match trackName d, artistName d, version d with
            | Some n, Some a, Some v =>
                Some {| d_name := n; d_developer := a; d_version := v;
                        d_app_id := id |}
            | _, _, _ => None
            end
        end
  end.

(** One element of [results] in the search document; [trackId] is a number
    there. *)
Record search_item := mk_search_item {
  item_trackName : option pystr;
  item_artistName : option pystr;
  item_trackId : option N;
  item_version : option pystr
}.

Inductive search_reply :=
  | SearchFailed
      (* [requests.get], [raise_for_status] or [response.json] raises *)
  | SearchJson (results : option (list search_item)).

(** The dictionary built for one element; [None] when a key is missing,
    which raises [KeyError] in the loop. *)
Definition search_entry (app : search_item) : option app_dict :=
  match item_trackName app, item_artistName app,
        item_trackId app, item_version app with
  | Some n, Some a, Some i, Some v =>
      Some {| d_name := n; d_developer := a; d_version := v;
              d_app_id := str_of_N i |}
  | _, _, _, _ => None
  end.

(** The loop appends to [results] and any exception leads to [return []]. *)
Definition search_apps_by_name (app_name : pystr) (reply : search_reply)
    : list app_dict :=
  match reply with
  | SearchFailed => []
  | SearchJson results =>
      default [] (mapM search_entry (take 5 (default [] results)))
  end.

End FindAppId.

(** ** Sample runs of the whole bot *)

Module SampleRun.

Definition tracked : list pystr := [Sample.id_A; Sample.id_B].

(** The lookups answer 1.1 for the first tracked app and 2.3 for the
    others. *)
Definition steady_round (slack : post_reply) : round :=
  {| lookup_answer := λ i,
       match i with
       | 0 => Sample.found "Alpha" "1.1" (lit "Bug fixes")
       | _ => Sample.found "Beta" "2.3" (lit "New look")
       end;
     slack_answer := slack |}.

(** Credentials set, two tracked apps, and a [last_check.json] that cannot
    be read. *)
Definition unreadable_store : world :=
  {| SLACK_BOT_TOKEN := Some (lit "xoxb-1");
     SLACK_CHANNEL := Some Sample.chan;
     competitors_file := FileJson {| app_ids := Some tracked |};
     last_check := FileUnreadable |}.

(** The same with an empty token. *)
Definition no_token : world :=
  {| SLACK_BOT_TOKEN := Some [];
     SLACK_CHANNEL := Some Sample.chan;
     competitors_file := FileJson {| app_ids := Some tracked |};
     last_check := FileUnreadable |}.

(** A result without release date, and five search results followed by a
    sixth that lacks its name. *)
Definition undated : lookup_reply :=
  LookupJson (Some 1%N)
    [ {| trackName := Some (lit "Alpha");
         artistName := Some (lit "Acme Inc.");
         version := Some (lit "1.1");
         currentVersionReleaseDate := DateMissing;
         trackViewUrl := Some (lit "https://apps.apple.com/app/id1");
         releaseNotes := None |} ].

Definition hit (n : N) : FindAppId.search_item :=
  {| FindAppId.item_trackName := Some (lit "Alpha");
     FindAppId.item_artistName := Some (lit "Acme Inc.");
     FindAppId.item_trackId := Some n;
     FindAppId.item_version := Some (lit "1.1") |}.

Definition nameless : FindAppId.search_item :=
  {| FindAppId.item_trackName := None;
     FindAppId.item_artistName := Some (lit "Acme Inc.");
     FindAppId.item_trackId := Some 6%N;
     FindAppId.item_version := Some (lit "1.1") |}.

Definition six_results : list FindAppId.search_item :=
  [hit 1; hit 2; hit 3; hit 4; hit 5; nameless].

End SampleRun.

(** ** Properties of the loop *)

Lemma bind_run {A B} (m : M A) (f : A → M B) (s : state) :
  (m ≫= f) s =
  match m s with
  | (Returned a, s') => f a s'
  | (Raised e, s') => (Raised e, s')
  end.
Proof. reflexivity. Qed.

Lemma with_versions_id (s : state) : with_versions s (last_versions s) = s.
Proof. by destruct s. Qed.

Lemma check_one_run acc call s :
  check_one acc call s =
  (Returned (acc ++ option_list (change_of (last_versions s) call)),
   with_versions s (versions_after (last_versions s) call)).
Proof.
  unfold check_one, versions_after, change_of.
  destruct (get_app_info call.1 call.2) as [info|]; simpl.
  - rewrite bind_run. simpl. case_bool_decide; simpl.
    + done.
    + by rewrite app_nil_r, with_versions_id.
  - by rewrite app_nil_r, with_versions_id.
Qed.

Lemma for_each_check_one_run calls acc s :
  for_each check_one acc calls s =
  (Returned (acc ++ changes_from (last_versions s) calls),
   with_versions s (versions_from (last_versions s) calls)).
Proof.
  revert acc s. induction calls as [|call calls IH]; intros acc s; simpl.
  - by rewrite app_nil_r, with_versions_id.
  - rewrite bind_run, check_one_run, IH. simpl. by rewrite <-app_assoc.
Qed.

Lemma collect_updates_run calls s :
  collect_updates calls s =
  (Returned (changes_from (last_versions s) calls),
   with_versions s (versions_from (last_versions s) calls)).
Proof. apply for_each_check_one_run. Qed.

Lemma get_app_info_app_id id reply info :
  get_app_info id reply = Some info →
  app_id info = id ∧ _is_new_release info = None.
Proof.
  unfold get_app_info. intros H.
  repeat (case_match; simplify_eq/=); done.
Qed.

Lemma change_of_Some vs call r :
  change_of vs call = Some r ↔
  ∃ info, get_app_info call.1 call.2 = Some info
    ∧ vs !! call.1 ≠ Some (current_version info)
    ∧ r = set_is_new_release info (bool_decide (vs !! call.1 ≠ None)).
Proof.
  unfold change_of. destruct (get_app_info call.1 call.2) as [info|].
  - case_bool_decide; split.
    + intros [= <-]. eauto.
    + by intros (? & [= <-] & _ & ->).
    + done.
    + intros (? & [= <-] & ? & _). done.
  - split; [done|]. by intros (? & ? & _).
Qed.

Lemma change_of_app_id vs call r :
  change_of vs call = Some r → app_id r = call.1.
Proof.
  intros (info & Hget & _ & ->)%change_of_Some.
  by apply get_app_info_app_id in Hget as [? _].
Qed.

Lemma versions_after_lookup vs call id :
  versions_after vs call !! id =
  match change_of vs call with
  | Some r => if decide (call.1 = id) then Some (current_version r) else vs !! id
  | None => vs !! id
  end.
Proof.
  unfold versions_after. destruct (change_of vs call) as [r|]; [|done].
  by rewrite lookup_insert.
Qed.

Lemma versions_after_other vs call id :
  call.1 ≠ id → versions_after vs call !! id = vs !! id.
Proof.
  intros Hne. rewrite versions_after_lookup.
  destruct (change_of vs call); [|done]. by rewrite decide_False.
Qed.

Lemma changes_from_app vs calls1 calls2 :
  changes_from vs (calls1 ++ calls2) =
  changes_from vs calls1 ++ changes_from (versions_from vs calls1) calls2.
Proof.
  revert vs. induction calls1 as [|call calls1 IH]; intros vs; simpl; [done|].
  by rewrite IH, app_assoc.
Qed.

Lemma versions_from_app vs calls1 calls2 :
  versions_from vs (calls1 ++ calls2) =
  versions_from (versions_from vs calls1) calls2.
Proof.
  revert vs. induction calls1 as [|call calls1 IH]; intros vs; simpl; [done|].
  by rewrite IH.
Qed.

Lemma changes_from_sublist vs calls :
  app_id <$> changes_from vs calls `sublist_of` calls.*1.
Proof.
  revert vs. induction calls as [|call calls IH]; intros vs; simpl; [done|].
  rewrite fmap_app. destruct (change_of vs call) as [r|] eqn:Hr; simpl.
  - rewrite (change_of_app_id _ _ _ Hr). by apply sublist_skip.
  - by apply sublist_cons.
Qed.

Lemma changes_from_elem vs calls r :
  r ∈ changes_from vs calls → app_id r ∈ calls.*1.
Proof.
  intros Hr. eapply elem_of_sublist; [|apply changes_from_sublist].
  by apply list_elem_of_fmap_2.
Qed.

Lemma changes_from_nil_versions vs calls :
  changes_from vs calls = [] → versions_from vs calls = vs.
Proof.
  revert vs. induction calls as [|call calls IH]; intros vs; simpl; [done|].
  intros [Hc Hrest]%app_eq_nil. unfold versions_after in *.
  destruct (change_of vs call); [done|]. by apply IH.
Qed.

(** The entry of [id] after the loop: the version of the last record the
    loop produced for [id], or the entry it had when none was produced. *)
Lemma versions_from_lookup vs calls id :
  versions_from vs calls !! id =
  match last (filter (λ r, app_id r = id) (changes_from vs calls)) with
  | Some r => Some (current_version r)
  | None => vs !! id
  end.
Proof.
  revert vs. induction calls as [|call calls IH]; intros vs; simpl; [done|].
  rewrite IH, filter_app, last_app.
  destruct (last (filter _ (changes_from _ calls))) as [r|]; [done|].
  rewrite versions_after_lookup.
  destruct (change_of vs call) as [r|] eqn:Hr; simpl; [|done].
  apply change_of_app_id in Hr.
  case_decide as Hid.
  - rewrite filter_cons_True by congruence. done.
  - rewrite filter_cons_False by congruence. done.
Qed.

(** ** Properties of a whole cycle *)

Lemma send_consolidated_notification_run slack chan ups s :
  send_consolidated_notification slack chan ups s =
  match ups with
  | [] => (Returned (), s)
  | _ =>
      match slack with
      | PostOtherError =>
          (Raised OtherError, with_post s (message_of chan ups))
      | _ => (Returned (), with_post s (message_of chan ups))
      end
  end.
Proof.
  unfold send_consolidated_notification, try_except.
  destruct ups as [|a ups]; [done|]. by destruct slack.
Qed.

Lemma check_for_updates_run slack chan calls s :
  check_for_updates slack chan calls s =
  let ups := changes_from (last_versions s) calls in
  let s1 := with_versions s (versions_from (last_versions s) calls) in
  match ups with
  | [] => (Returned (), s)
  | _ =>
      match slack with
      | PostOtherError =>
          (Raised OtherError, with_post s1 (message_of chan ups))
      | _ => (Returned (), committed (with_post s1 (message_of chan ups)))
      end
  end.
Proof.
  unfold check_for_updates. rewrite bind_run, collect_updates_run. simpl.
  destruct (changes_from (last_versions s) calls) as [|a ups] eqn:Hups.
  - by rewrite (changes_from_nil_versions _ _ Hups), with_versions_id.
  - rewrite bind_run, send_consolidated_notification_run.
    by destruct slack.
Qed.

Lemma check_for_updates_versions slack chan calls s :
  last_versions (check_for_updates slack chan calls s).2 =
  versions_from (last_versions s) calls.
Proof.
  rewrite check_for_updates_run. simpl.
  destruct (changes_from (last_versions s) calls) as [|a ups] eqn:Hups.
  - by rewrite (changes_from_nil_versions _ _ Hups).
  - by destruct slack.
Qed.

Lemma filter_nil_intro {A} (P : A → Prop) `{!∀ x, Decision (P x)}
    (l : list A) :
  (∀ x, x ∈ l → ¬ P x) → filter P l = [].
Proof.
  intros Hall. destruct (filter P l) as [|x k] eqn:Hf; [done|].
  assert (x ∈ filter P l) as [? ?]%list_elem_of_filter
    by (rewrite Hf; left).
  by destruct (Hall x).
Qed.

Lemma changes_from_origin vs calls r :
  r ∈ changes_from vs calls →
  ∃ call vs', call ∈ calls ∧ change_of vs' call = Some r.
Proof.
  revert vs. induction calls as [|call calls IH]; intros vs; simpl.
  - by intros ?%elem_of_nil.
  - intros [Hr|Hr]%elem_of_app.
    + destruct (change_of vs call) as [r'|] eqn:Hc; simpl in Hr.
      * apply list_elem_of_singleton in Hr as ->.
        exists call, vs. split; [left|done].
      * by apply elem_of_nil in Hr.
    + destruct (IH _ Hr) as (c & vs' & ? & ?).
      exists c, vs'. split; [by right|done].
Qed.

(** Once the dictionary holds for [id] the version that every successful
    lookup of [id] reports, the loop produces nothing more for [id]. *)
Lemma changes_from_settled vs calls id v :
  (∀ reply info, (id, reply) ∈ calls →
     get_app_info id reply = Some info → current_version info = v) →
  vs !! id = Some v →
  filter (λ r, app_id r = id) (changes_from vs calls) = [].
Proof.
  revert vs. induction calls as [|[id' reply'] calls IH]; intros vs Hv Hvs.
  - done.
  - simpl. rewrite filter_app.
    assert (Htail : ∀ reply info, (id, reply) ∈ calls →
      get_app_info id reply = Some info → current_version info = v).
    { intros ?? Hin. apply Hv. by right. }
    destruct (decide (id' = id)) as [->|Hne].
    + assert (change_of vs (id, reply') = None) as Hnone.
      { destruct (change_of vs (id, reply')) as [r|] eqn:Hc; [|done].
        apply change_of_Some in Hc as (info & Hget & Hdiff & _).
        simpl in *. rewrite (Hv reply' info) in Hdiff; [done|left|done]. }
      unfold versions_after. rewrite Hnone. simpl. by apply IH.
    + rewrite IH; [| done | by rewrite versions_after_other].
      destruct (change_of vs (id', reply')) as [r|] eqn:Hc; simpl; [|done].
      apply change_of_app_id in Hc. simpl in Hc.
      rewrite filter_cons_False by congruence. done.
Qed.

(** What the loop produces for an id whose lookups all give [reply]. *)
Lemma changes_from_of_id vs calls id reply info :
  (id, reply) ∈ calls →
  (∀ reply', (id, reply') ∈ calls → reply' = reply) →
  get_app_info id reply = Some info →
  filter (λ r, app_id r = id) (changes_from vs calls) =
  if decide (vs !! id = Some (current_version info)) then []
  else [set_is_new_release info (bool_decide (vs !! id ≠ None))].
Proof.
  intros Hin Hsame Hget. revert vs Hin Hsame.
  induction calls as [|[id' reply'] calls IH]; intros vs Hin Hsame.
  - by apply elem_of_nil in Hin.
  - simpl. rewrite filter_app.
    assert (Hsame' : ∀ reply'', (id, reply'') ∈ calls → reply'' = reply).
    { intros ? ?. apply Hsame. by right. }
    assert (Hsettle : ∀ reply'' info', (id, reply'') ∈ calls →
      get_app_info id reply'' = Some info' →
      current_version info' = current_version info).
    { intros r'' i'' Hr Hg. rewrite (Hsame' _ Hr) in Hg. congruence. }
    destruct (decide (id' = id)) as [->|Hne].
    + rewrite (Hsame reply') by left. clear Hin.
      unfold versions_after, change_of. simpl. rewrite Hget.
      case_bool_decide as Hd.
      * rewrite decide_False by done. simpl.
        rewrite filter_cons_True
          by (by apply get_app_info_app_id in Hget as [? _]).
        rewrite (changes_from_settled _ _ _ _ Hsettle); [done|].
        simpl. by rewrite lookup_insert_eq.
      * rewrite decide_True by done. simpl.
        by rewrite (changes_from_settled _ _ _ _ Hsettle).
    + apply elem_of_cons in Hin as [[=]|Hin]; [done|].
      rewrite IH by done. rewrite versions_after_other by done.
      destruct (change_of vs (id', reply')) as [r|] eqn:Hc; simpl; [|done].
      apply change_of_app_id in Hc. simpl in Hc.
      rewrite filter_cons_False by congruence. done.
Qed.

(** ** Delivery failure and the commit *)



(** ** Detection of changes *)

(** C2.  For a tracked id whose lookup succeeds with [info], the cycle
    produces a record for the id exactly when the fetched version differs
    from the stored one (no stored version counts as a difference); that
    record carries the fetched fields, is a FIRST_OBSERVATION exactly when
    nothing was stored and a NEW_RELEASE exactly when a different version was
    stored; and there is at most one of it. *)
Theorem C2_change_iff_version_differs calls s id reply info :
  (id, reply) ∈ calls →
  (∀ reply', (id, reply') ∈ calls → reply' = reply) →
  get_app_info id reply = Some info →
  ∃ ups s1, collect_updates calls s = (Returned ups, s1) ∧
    let stored := last_versions s !! id in
    ((∃ r, r ∈ ups ∧ app_id r = id)
       ↔ stored ≠ Some (current_version info)) ∧
    (∀ r, r ∈ ups → app_id r = id →
       astuple r = astuple info ∧
       (kind_of r = FIRST_OBSERVATION ↔ stored = None) ∧
       (kind_of r = NEW_RELEASE
          ↔ ∃ v, stored = Some v ∧ v ≠ current_version info)) ∧
    length (filter (λ r, app_id r = id) ups) ≤ 1.
Proof.
  intros Hin Hsame Hget.
  eexists _, _. split; [apply collect_updates_run|]. simpl.
  pose proof (changes_from_of_id (last_versions s) _ _ _ _ Hin Hsame Hget)
    as Hf.
  set (ups := changes_from (last_versions s) calls) in *.
  assert (Hmem : ∀ r, r ∈ ups ∧ app_id r = id
                      ↔ r ∈ filter (λ r, app_id r = id) ups).
  { intros r. rewrite list_elem_of_filter. tauto. }
  destruct (last_versions s !! id) as [v|] eqn:Hst.
  - destruct (decide (Some v = Some (current_version info))) as [Heq|Hne].
    + rewrite Hf in Hmem. split_and!.
      * split; [|done]. intros (r & Hr). apply Hmem in Hr.
        by apply elem_of_nil in Hr.
      * intros r Hr Hid.
        by pose proof (proj1 (Hmem r) (conj Hr Hid)) as ?%elem_of_nil.
      * rewrite Hf. simpl. lia.
    + rewrite Hf in Hmem. split_and!.
      * split; [done|]. intros _. eexists. apply Hmem. left.
      * intros r Hr Hid.
        pose proof (proj1 (Hmem r) (conj Hr Hid)) as ->%list_elem_of_singleton.
        split_and!; [done| |].
        -- split; [|done]. by rewrite bool_decide_true.
        -- split; [|by rewrite bool_decide_true].
           intros _. exists v. split; [done|congruence].
      * rewrite Hf. simpl. lia.
  - rewrite decide_False in Hf by done. rewrite Hf in Hmem. split_and!.
    + split; [done|]. intros _. eexists. apply Hmem. left.
    + intros r Hr Hid.
      pose proof (proj1 (Hmem r) (conj Hr Hid)) as ->%list_elem_of_singleton.
      split_and!; [done|done|].
      split; [done|]. by intros (? & ? & _).
    + rewrite Hf. simpl. lia.
Qed.

(** The second app of the sample cycle, absent from the store, yields a
    FIRST_OBSERVATION. *)
Lemma C2_change_iff_version_differs_witness :
  ∃ ups s1,
    collect_updates Sample.mixed_calls Sample.one_known = (Returned ups, s1) ∧
    (∃ r, r ∈ ups ∧ app_id r = Sample.id_B
          ∧ kind_of r = FIRST_OBSERVATION).
Proof.
  destruct (C2_change_iff_version_differs Sample.mixed_calls Sample.one_known
              Sample.id_B
              (Sample.found "Beta" "2.3" (lit "New look"))
              {| app_id := Sample.id_B; name := lit "Beta";
                 developer := lit "Acme Inc.";
                 current_version := lit "2.3";
                 last_updated := Sample.released;
                 store_url := lit "https://apps.apple.com/app/id1";
                 release_notes := lit "New look";
                 _is_new_release := None |})
    as (ups & s1 & Hrun & Hiff & Hkind & _).
  - vm_compute. right. left.
  - intros reply' Hin. vm_compute in Hin.
    repeat (apply elem_of_cons in Hin as [Hin|Hin]; [by simplify_eq|]).
    by apply elem_of_nil in Hin.
  - reflexivity.
  - exists ups, s1. split; [exact Hrun|].
    destruct (proj2 Hiff) as (r & Hr & Hid); [by vm_compute|].
    exists r. split_and!; [done..|].
    apply (Hkind r Hr Hid). reflexivity.
Defined.


(** ** Failed lookups *)

(** The lookups that [get_app_info] answers with [None]: the request or its
    decoding raised, the document counts no result, the result list is
    empty, or the first result lacks a field the constructor reads (the
    release notes alone are optional). *)
Lemma get_app_info_None id reply :
  get_app_info id reply = None ↔
  match reply with
  | RequestFailed => True
  | LookupJson resultCount results =>
      default 0%N resultCount = 0%N ∨
      match results with
      | [] => True
      | d :: _ =>
          trackName d = None ∨ artistName d = None ∨ version d = None
          ∨ (∀ t, currentVersionReleaseDate d ≠ DateParsed t)
          ∨ trackViewUrl d = None
      end
  end.
Proof.
  destruct reply as [|resultCount results]; simpl; [done|].
  case_bool_decide as Hcount; [naive_solver|].
  destruct results as [|d rest]; [naive_solver|].
  destruct d as [[n|] [a|] [v|] [| |t] [u|] notes]; simpl;
    (split; [ try discriminate; intros _; auto 10 using release_date
            | try done; intros [?|[?|[?|[?|[Hd|?]]]]]; try done;
              by destruct (Hd t) ]).
Qed.

(** C4.  A call whose lookup fails produces no record and leaves the
    dictionary alone, and the loop runs on: the cycle is the one that the
    tracked list without that call performs.  When every lookup of the id
    fails in the cycle, no record bears the id and its entry is the one it
    had, in the dictionary and, where the file agreed with the dictionary on
    it, in the file. *)
Theorem C4_failed_lookup_is_skipped slack chan before after id reply s :
  get_app_info id reply = None →
  let calls := before ++ (id, reply) :: after in
  ∃ ups s1, collect_updates calls s = (Returned ups, s1) ∧
    collect_updates (before ++ after) s = (Returned ups, s1) ∧
    check_for_updates slack chan calls s
      = check_for_updates slack chan (before ++ after) s ∧
    ((∀ reply', (id, reply') ∈ calls → get_app_info id reply' = None) →
       let s' := (check_for_updates slack chan calls s).2 in
       (∀ r, r ∈ ups → app_id r ≠ id) ∧
       last_versions s' !! id = last_versions s !! id ∧
       (last_check_file s !! id = last_versions s !! id →
        last_check_file s' !! id = last_check_file s !! id)).
Proof.
  intros Hfail calls.
  assert (Hskip : change_of (versions_from (last_versions s) before)
                    (id, reply) = None).
  { unfold change_of. simpl. by rewrite Hfail. }
  assert (Hch : changes_from (last_versions s) calls
                = changes_from (last_versions s) (before ++ after)).
  { unfold calls. rewrite !changes_from_app. simpl.
    unfold versions_after. by rewrite Hskip. }
  assert (Hvs : versions_from (last_versions s) calls
                = versions_from (last_versions s) (before ++ after)).
  { unfold calls. rewrite !versions_from_app. simpl.
    unfold versions_after. by rewrite Hskip. }
  eexists _, _. split; [apply collect_updates_run|].
  split; [by rewrite collect_updates_run, Hch, Hvs|].
  split; [by rewrite !check_for_updates_run, Hch, Hvs|].
  intros Hall. simpl.
  assert (Hnone : ∀ r, r ∈ changes_from (last_versions s) calls →
                       app_id r ≠ id).
  { intros r (call & vs' & Hcall & Hc)%changes_from_origin Hid.
    pose proof (change_of_app_id _ _ _ Hc) as Hid'.
    apply change_of_Some in Hc as (info & Hget & _).
    destruct call as [id' reply']. simpl in *. rewrite Hid' in Hid. subst id'.
    by rewrite (Hall _ Hcall) in Hget. }
  assert (Hkeep : versions_from (last_versions s) calls !! id
                  = last_versions s !! id).
  { rewrite versions_from_lookup, (filter_nil_intro _ _ Hnone). done. }
  split; [done|]. split.
  - by rewrite check_for_updates_versions.
  - intros Hagree. rewrite check_for_updates_run. simpl.
    destruct (changes_from (last_versions s) calls); [done|].
    destruct slack; simpl; by rewrite ?Hkeep.
Qed.

(** The sample cycle, whose third lookup fails, is the cycle over its first
    two calls. *)
Lemma C4_failed_lookup_is_skipped_witness :
  ∃ ups s1,
    collect_updates Sample.mixed_calls Sample.one_known = (Returned ups, s1) ∧
    collect_updates (take 2 Sample.mixed_calls) Sample.one_known
      = (Returned ups, s1) ∧
    (∀ r, r ∈ ups → app_id r ≠ Sample.id_C) ∧
    last_versions s1 !! Sample.id_C = None.
Proof.
  destruct (C4_failed_lookup_is_skipped PostOk Sample.chan
              (take 2 Sample.mixed_calls) [] Sample.id_C RequestFailed
              Sample.one_known)
    as (ups & s1 & Hrun & Hrun' & _ & Hall).
  - reflexivity.
  - exists ups, s1. rewrite app_nil_r in Hrun'.
    split; [exact Hrun|]. split; [exact Hrun'|].
    destruct Hall as (Hnone & _ & _).
    + intros reply' Hin. vm_compute in Hin.
      repeat (apply elem_of_cons in Hin as [Hin|Hin]; [by simplify_eq|]).
      by apply elem_of_nil in Hin.
    + split; [exact Hnone|].
      rewrite collect_updates_run in Hrun. by simplify_eq.
Defined.

(** ** Cycles without changes *)

Lemma changes_from_all_fail vs calls :
  (∀ call, call ∈ calls → get_app_info call.1 call.2 = None) →
  changes_from vs calls = [].
Proof.
  intros Hall. destruct (changes_from vs calls) as [|r ups] eqn:Hups; [done|].
  assert (r ∈ changes_from vs calls)
    as (call & vs' & Hcall & Hc)%changes_from_origin by (rewrite Hups; left).
  apply change_of_Some in Hc as (info & Hget & _).
  by rewrite (Hall _ Hcall) in Hget.
Qed.

(** C7.  The notifier given no app posts nothing; a cycle that finds no
    change ends in the state it started from, so no message reached the
    Slack client and nothing was written; this is the case in particular
    when every lookup fails. *)
Theorem C7_no_change_no_message slack chan calls s :
  send_consolidated_notification slack chan [] s = (Returned (), s) ∧
  (∀ s1, collect_updates calls s = (Returned [], s1) →
     check_for_updates slack chan calls s = (Returned (), s)
     ∧ posted (check_for_updates slack chan calls s).2 = posted s) ∧
  ((∀ call, call ∈ calls → get_app_info call.1 call.2 = None) →
     collect_updates calls s = (Returned [], s)
     ∧ check_for_updates slack chan calls s = (Returned (), s)).
Proof.
  split; [by rewrite send_consolidated_notification_run|]. split.
  - intros s1. rewrite collect_updates_run. intros [= Hups _].
    rewrite check_for_updates_run. simpl. by rewrite Hups.
  - intros Hall. pose proof (changes_from_all_fail (last_versions s) _ Hall)
      as Hups.
    rewrite collect_updates_run, check_for_updates_run. simpl.
    by rewrite Hups, (changes_from_nil_versions _ _ Hups), with_versions_id.
Qed.

(** A cycle whose three lookups fail in three ways posts nothing. *)
Lemma C7_no_change_no_message_witness :
  collect_updates Sample.all_failing Sample.one_known
    = (Returned [], Sample.one_known)
  ∧ posted (check_for_updates PostOk Sample.chan Sample.all_failing
              Sample.one_known).2 = [].
Proof.
  destruct (C7_no_change_no_message PostOk Sample.chan Sample.all_failing
              Sample.one_known) as (_ & Hnone & Hfail).
  destruct Hfail as [Hrun _].
  - intros call Hin. vm_compute in Hin.
    repeat (apply elem_of_cons in Hin as [->|Hin]; [reflexivity|]).
    by apply elem_of_nil in Hin.
  - split; [exact Hrun|]. by destruct (Hnone _ Hrun) as [_ ->].
Defined.

Lemma changes_from_all_settled vs calls :
  (∀ call, call ∈ calls → ∃ info,
     get_app_info call.1 call.2 = Some info
     ∧ vs !! call.1 = Some (current_version info)) →
  changes_from vs calls = [].
Proof.
  induction calls as [|call calls IH]; intros Hall; simpl; [done|].
  assert (change_of vs call = None) as Hnone.
  { destruct (Hall call) as (info & Hget & Hvs); [left|].
    unfold change_of. rewrite Hget, Hvs. by rewrite bool_decide_false by auto. }
  unfold versions_after. rewrite Hnone. simpl. apply IH.
  intros c Hc. apply Hall. by right.
Qed.

Lemma versions_from_all_found vs calls (ver : pystr → pystr) id :
  (∀ call, call ∈ calls → ∃ info,
     get_app_info call.1 call.2 = Some info
     ∧ current_version info = ver call.1) →
  id ∈ calls.*1 →
  versions_from vs calls !! id = Some (ver id).
Proof.
  induction calls as [|call calls IH] using rev_ind; intros Hall Hid.
  - by apply elem_of_nil in Hid.
  - rewrite versions_from_app. simpl.
    destruct (Hall call) as (info & Hget & Hver);
      [apply elem_of_app; right; left|].
    destruct (decide (call.1 = id)) as [<-|Hne].
    + rewrite versions_after_lookup. unfold change_of. rewrite Hget.
      case_bool_decide as Hd; simpl.
      * by rewrite decide_True, Hver.
      * by rewrite Hd, Hver.
    + rewrite versions_after_other by done. apply IH.
      * intros c Hc. apply Hall, elem_of_app. by left.
      * rewrite fmap_app in Hid. apply elem_of_app in Hid as [?|Hid]; [done|].
        simpl in Hid. by apply list_elem_of_singleton in Hid.
Qed.

(** C9.  Two cycles in a row over the same tracked ids, every lookup of
    both succeeding and reporting for each id one and the same version: the
    second cycle produces no record, whatever became of the first cycle's
    delivery, and ends in the state it started from. *)
Theorem C9_second_cycle_finds_nothing slack1 slack2 chan calls1 calls2
    (ver : pystr → pystr) s :
  calls1.*1 = calls2.*1 →
  (∀ call, call ∈ calls1 ++ calls2 → ∃ info,
     get_app_info call.1 call.2 = Some info
     ∧ current_version info = ver call.1) →
  let s1 := (check_for_updates slack1 chan calls1 s).2 in
  collect_updates calls2 s1 = (Returned [], s1) ∧
  check_for_updates slack2 chan calls2 s1 = (Returned (), s1).
Proof.
  intros Hids Hall s1.
  assert (Hups : changes_from (last_versions s1) calls2 = []).
  { apply changes_from_all_settled. intros call Hcall.
    destruct (Hall call) as (info & Hget & Hver);
      [apply elem_of_app; by right|].
    exists info. split; [done|]. unfold s1.
    rewrite check_for_updates_versions, Hver.
    apply versions_from_all_found.
    - intros c Hc. apply Hall, elem_of_app. by left.
    - rewrite Hids. by apply list_elem_of_fmap_2. }
  rewrite collect_updates_run, check_for_updates_run. simpl.
  by rewrite Hups, (changes_from_nil_versions _ _ Hups), with_versions_id.
Qed.

(** A second identical cycle after a first one whose delivery failed. *)
Lemma C9_second_cycle_finds_nothing_witness :
  let s1 := (check_for_updates PostApiError Sample.chan Sample.steady_calls
               Sample.one_known).2 in
  collect_updates Sample.steady_calls s1 = (Returned [], s1).
Proof.
  apply (C9_second_cycle_finds_nothing PostApiError PostOk Sample.chan
           Sample.steady_calls Sample.steady_calls Sample.steady_version
           Sample.one_known).
  - reflexivity.
  - intros call Hin. vm_compute in Hin.
    repeat (apply elem_of_cons in Hin as [->|Hin];
            [eexists; split; reflexivity|]).
    by apply elem_of_nil in Hin.
Defined.

(** ** The version mapping across a cycle *)

(** C10.  Across a cycle no key leaves the dictionary; an id that is not
    tracked keeps its entry; a tracked id keeps its entry when the cycle
    produced no record for it, which is the case when each of its lookups
    failed or reported the stored version, and otherwise maps to the version
    of the last record produced for it, a version fetched for that id in
    this cycle; an id whose lookups all give one successful reply maps to
    the version of that reply.  The file after the cycle is the file before
    it or the dictionary after it. *)
Theorem C10_version_mapping_invariant slack chan calls s :
  ∃ ups s1, collect_updates calls s = (Returned ups, s1) ∧
    let s' := (check_for_updates slack chan calls s).2 in
    (∀ id, is_Some (last_versions s !! id) →
           is_Some (last_versions s' !! id)) ∧
    (∀ id, id ∉ calls.*1 →
           last_versions s' !! id = last_versions s !! id) ∧
    (∀ id, last_versions s' !! id =
           match last (filter (λ r, app_id r = id) ups) with
           | Some r => Some (current_version r)
           | None => last_versions s !! id
           end) ∧
    (∀ r, r ∈ ups → ∃ reply info,
           (app_id r, reply) ∈ calls
           ∧ get_app_info (app_id r) reply = Some info
           ∧ current_version r = current_version info) ∧
    (∀ id,
       (∀ reply info, (id, reply) ∈ calls →
          get_app_info id reply = Some info →
          last_versions s !! id = Some (current_version info)) →
       last_versions s' !! id = last_versions s !! id) ∧
    (∀ id reply info,
       (id, reply) ∈ calls →
       (∀ reply', (id, reply') ∈ calls → reply' = reply) →
       get_app_info id reply = Some info →
       last_versions s' !! id = Some (current_version info)) ∧
    (last_check_file s' = last_check_file s
     ∨ last_check_file s' = last_versions s').
Proof.
  eexists _, _. split; [apply collect_updates_run|]. simpl.
  rewrite check_for_updates_versions.
  assert (Hlook := versions_from_lookup (last_versions s) calls).
  split_and!.
  - intros id Hsome. rewrite Hlook. by case_match.
  - intros id Hid. rewrite Hlook.
    rewrite filter_nil_intro; [done|].
    intros r Hr%changes_from_elem ?. congruence.
  - done.
  - intros r (call & vs' & Hcall & Hc)%changes_from_origin.
    pose proof (change_of_app_id _ _ _ Hc) as Hid.
    apply change_of_Some in Hc as (info & Hget & _ & ->).
    destruct call as [id reply]. simpl in *. subst id.
    by exists reply, info.
  - intros id Hsame. rewrite Hlook.
    destruct (last_versions s !! id) as [v|] eqn:Hst.
    + rewrite (changes_from_settled _ _ id v); [done| |done].
      intros reply info Hin Hget. specialize (Hsame _ _ Hin Hget).
      congruence.
    + rewrite filter_nil_intro; [done|].
      intros r (call & vs' & Hcall & Hc)%changes_from_origin Hid.
      pose proof (change_of_app_id _ _ _ Hc) as Hid'.
      apply change_of_Some in Hc as (info & Hget & _).
      destruct call as [id' reply]. simpl in *.
      rewrite Hid' in Hid. subst id'.
      by specialize (Hsame _ _ Hcall Hget).
  - intros id reply info Hin Hsame Hget. rewrite Hlook.
    rewrite (changes_from_of_id _ _ _ _ _ Hin Hsame Hget).
    by case_decide.
  - rewrite check_for_updates_run. simpl.
    destruct (changes_from (last_versions s) calls) as [|a ups] eqn:Hups;
      [by left|].
    destruct slack; simpl; auto.
Qed.

(** The first scenario of the specification: the store holds 1.0 for the
    first app, the second app is new, the third lookup fails. *)
Lemma C10_version_mapping_invariant_witness :
  let s' := (check_for_updates PostOk Sample.chan Sample.mixed_calls
               Sample.one_known).2 in
  last_versions s' = {[ Sample.id_A := lit "1.0"; Sample.id_B := lit "2.3" ]}
  ∧ last_check_file s' = last_versions s'
  ∧ last_versions s' !! Sample.id_C = None.
Proof.
  destruct (C10_version_mapping_invariant PostOk Sample.chan
              Sample.mixed_calls Sample.one_known)
    as (ups & s1 & Hrun & _ & _ & _ & _ & Hkeep & _ & _).
  split; [by vm_compute|]. split; [by vm_compute|].
  rewrite (Hkeep Sample.id_C); [reflexivity|].
  intros reply info Hin. vm_compute in Hin.
  repeat (apply elem_of_cons in Hin as [Hin|Hin]; [by simplify_eq|]).
  by apply elem_of_nil in Hin.
Defined.

(** ** Strings *)

Lemma forallb_lstrip s : forallb isspace (lstrip s) = forallb isspace s.
Proof.
  induction s as [|c s IH]; simpl; [done|].
  destruct (isspace c) eqn:Hc; simpl; [done|]. by rewrite Hc.
Qed.

Lemma lstrip_nil s : lstrip s = [] ↔ forallb isspace s = true.
Proof.
  induction s as [|c s IH]; simpl; [done|].
  destruct (isspace c); simpl; [done|]. split; discriminate.
Qed.

Lemma forallb_reverse (f : N → bool) s : forallb f (reverse s) = forallb f s.
Proof.
  induction s as [|c s IH]; simpl; [done|].
  rewrite reverse_cons, forallb_app, IH. simpl.
  rewrite andb_true_r. apply andb_comm.
Qed.

(** [strip] leaves nothing exactly of the strings made of blanks only. *)
Lemma strip_nil s : strip s = [] ↔ forallb isspace s = true.
Proof.
  unfold strip, rstrip.
  rewrite <-(forallb_lstrip s), <-(forallb_reverse _ (lstrip s)).
  rewrite <-lstrip_nil. split.
  - intros H. apply (f_equal reverse) in H.
    by rewrite reverse_involutive in H.
  - by intros ->.
Qed.

Lemma notes_condition s :
  truthy s && truthy (strip s) = bool_decide (strip s ≠ []).
Proof.
  destruct s as [|c s]; [done|]. simpl truthy at 1. simpl andb.
  destruct (strip (c :: s)); by simpl.
Qed.

Lemma uint_chars_inj d1 d2 : uint_chars d1 = uint_chars d2 → d1 = d2.
Proof.
  revert d2. induction d1; intros []; simpl; intros H; simplify_eq;
    f_equal; auto.
Qed.

Lemma str_of_nat_inj n1 n2 : str_of_nat n1 = str_of_nat n2 → n1 = n2.
Proof.
  intros H%uint_chars_inj.
  by rewrite <-(DecimalNat.Unsigned.of_to n1), H, DecimalNat.Unsigned.of_to.
Qed.

(** ** Layout of the message *)

Lemma add_app_blocks ups acc a :
  add_app ups acc a =
  acc ++ sections_of a
      ++ (if AppInfo_ne a (default a (last ups)) then [Divider] else []).
Proof.
  unfold add_app, sections_of, note_blocks. rewrite notes_condition.
  case_bool_decide; destruct (AppInfo_ne _ _); simpl;
    by rewrite <-?app_assoc.
Qed.

Lemma foldl_add_app ups acc l :
  foldl (add_app ups) acc l =
  acc ++ (a ← l;
          sections_of a
            ++ (if AppInfo_ne a (default a (last ups)) then [Divider] else [])).
Proof.
  revert acc. induction l as [|a l IH]; intros acc; simpl.
  - by rewrite app_nil_r.
  - rewrite IH, add_app_blocks. by rewrite <-!app_assoc.
Qed.

(** The blocks of the message: the header, then for each app in turn its
    blocks, followed by a divider when the app differs, as a dataclass
    value, from the last app of the list. *)
Lemma blocks_of_layout ups :
  blocks_of ups =
  Header (PlainText (title_of ups))
    :: (a ← ups;
        sections_of a
          ++ (if AppInfo_ne a (default a (last ups)) then [Divider] else [])).
Proof. unfold blocks_of. by rewrite foldl_add_app. Qed.

Lemma notes_section_text a :
  notes_text (notes_section a) = Some (expected_notes (release_notes a)).
Proof.
  unfold notes_section, expected_notes, notes_text. do 4 f_equal.
  case_bool_decide.
  - rewrite decide_True by done. by rewrite <-app_assoc.
  - rewrite decide_False by done. by rewrite take_ge by lia.
Qed.

Lemma omap_notes_text_blocks (final : AppInfo → AppInfo) l :
  omap notes_text
    (a ← l; sections_of a
              ++ (if AppInfo_ne a (final a) then [Divider] else []))
  = (expected_notes ∘ release_notes)
      <$> filter (λ a, strip (release_notes a) ≠ []) l.
Proof.
  induction l as [|a l IH]; [done|].
  rewrite bind_cons, !omap_app, IH. unfold sections_of, note_blocks.
  assert (omap notes_text (if AppInfo_ne a (final a) then [Divider] else [])
          = []) as -> by (by destruct (AppInfo_ne _ _)).
  rewrite app_nil_r. case_bool_decide.
  - rewrite filter_cons_True, fmap_cons by done.
    cbn [omap list_omap app_section notes_text].
    by rewrite notes_section_text.
  - by rewrite filter_cons_False by tauto.
Qed.

(** C5.  In the message posted for a non-empty list of records, the
    release-notes blocks are, in order, those of the records whose notes are
    not empty after trimming; each carries the first 500 characters of the
    notes followed by three dots when the notes are longer than 500
    characters, and the notes as they are otherwise. *)
Theorem C5_release_notes_truncated slack chan ups s :
  ups ≠ [] →
  ∃ msg,
    posted (send_consolidated_notification slack chan ups s).2
      = posted s ++ [msg] ∧
    omap notes_text (blocks msg)
      = (expected_notes ∘ release_notes)
          <$> filter (λ a, strip (release_notes a) ≠ []) ups.
Proof.
  intros Hne. exists (message_of chan ups). split.
  - rewrite send_consolidated_notification_run.
    destruct ups; [done|]. by destruct slack.
  - simpl. rewrite blocks_of_layout. simpl.
    apply (omap_notes_text_blocks (λ a, default a (last ups))).
Qed.

(** Notes of 600 characters are cut to 500 and three dots, blank notes give
    no block, short notes are kept. *)
Lemma C5_release_notes_truncated_witness :
  ∃ msg,
    posted (send_consolidated_notification PostOk Sample.chan
              [ Sample.app "Alpha" "1.1" Sample.long_notes true;
                Sample.app "Beta" "2.0" (lit "   ") true;
                Sample.app "Gamma" "3.0" (lit "Bug fixes") false ]
              Sample.fresh_state).2 = [msg] ∧
    omap notes_text (blocks msg) =
      [ lit "*What's New:*" ++ newline ++ lit "```"
          ++ replicate 500 0x61%N ++ lit "..." ++ lit "```";
        lit "*What's New:*" ++ newline ++ lit "```"
          ++ lit "Bug fixes" ++ lit "```" ].
Proof.
  destruct (C5_release_notes_truncated PostOk Sample.chan
              [ Sample.app "Alpha" "1.1" Sample.long_notes true;
                Sample.app "Beta" "2.0" (lit "   ") true;
                Sample.app "Gamma" "3.0" (lit "Bug fixes") false ]
              Sample.fresh_state) as (msg & Hposted & Hnotes).
  - discriminate.
  - exists msg. split; [exact Hposted|].
    rewrite Hnotes. vm_compute. reflexivity.
Defined.

(** The layout when no record before the last one equals it: every app is
    followed by one divider, except the last. *)
Lemma blocks_of_separated init z :
  (∀ a, a ∈ init → astuple a ≠ astuple z) →
  blocks_of (init ++ [z]) =
  Header (PlainText (title_of (init ++ [z])))
    :: (a ← init; sections_of a ++ [Divider]) ++ sections_of z.
Proof.
  intros Hdiff. rewrite blocks_of_layout, last_snoc. simpl. f_equal.
  rewrite bind_app. f_equal.
  - induction init as [|a init IH]; [done|].
    rewrite !bind_cons, IH by (intros; apply Hdiff; by right).
    unfold AppInfo_ne. rewrite bool_decide_true; [done|].
    apply Hdiff. left.
  - simpl. unfold AppInfo_ne. rewrite bool_decide_false by auto.
    by rewrite !app_nil_r.
Qed.

(** Whatever the list, the app sections of the message are those of the
    records, one each and in order, and a non-empty list never ends on a
    divider. *)
Lemma filter_app_sections (final : AppInfo → AppInfo) l :
  filter (λ b, is_app_section b = true)
    (a ← l; sections_of a
              ++ (if AppInfo_ne a (final a) then [Divider] else []))
  = app_section <$> l.
Proof.
  induction l as [|a l IH]; [done|].
  rewrite bind_cons, !filter_app, IH, fmap_cons.
  unfold sections_of, note_blocks.
  rewrite filter_cons_True by done.
  assert (filter (λ b, is_app_section b = true)
            (if AppInfo_ne a (final a) then [Divider] else []) = []) as ->
    by (by destruct (AppInfo_ne _ _)).
  by case_bool_decide.
Qed.

Lemma blocks_of_app_sections ups :
  filter (λ b, is_app_section b = true) (blocks_of ups) = app_section <$> ups.
Proof.
  rewrite blocks_of_layout, filter_cons_False by done.
  apply (filter_app_sections (λ a, default a (last ups))).
Qed.

Lemma blocks_of_last_not_divider ups :
  ups ≠ [] → last (blocks_of ups) ≠ Some Divider.
Proof.
  induction ups as [|z init _] using rev_ind; [done|]. intros _.
  rewrite blocks_of_layout, last_snoc, bind_app. simpl.
  unfold AppInfo_ne. rewrite bool_decide_false by auto.
  rewrite !app_nil_r, app_comm_cons, last_app.
  unfold sections_of, note_blocks. by case_bool_decide.
Qed.

(** C6 at its failing input.  Two records with equal dataclass fields: the
    message shows two app sections and no divider between them, because the
    test [app_info != updated_apps[-1]] takes the first record for the last
    one. *)
Lemma C6_equal_records_share_no_divider :
  blocks (message_of Sample.chan Sample.twins) =
    [ Header (PlainText (title_of Sample.twins));
      app_section (Sample.app "Alpha" "1.1" [] true);
      app_section (Sample.app "Alpha" "1.1" [] true) ]
  ∧ Divider ∉ blocks (message_of Sample.chan Sample.twins).
Proof.
  split; [reflexivity|].
  intros Hin. vm_compute in Hin.
  repeat (apply elem_of_cons in Hin as [[=]|Hin]).
  by apply elem_of_nil in Hin.
Qed.

(** Such a list is within reach of a cycle: an id tracked three times whose
    lookups answer 1.0, 1.1 and 1.0 yields three records, the first and the
    last equal as dataclass values, and the posted message has a single
    divider for its three app sections. *)
Lemma flapping_cycle_posts_one_divider :
  ∃ msg,
    posted (check_for_updates PostOk Sample.chan Sample.flapping_calls
              Sample.fresh_state).2 = [msg] ∧
    astuple <$> head (Sample.flapping_calls ≫= λ call,
                        option_list (get_app_info call.1 call.2))
      = astuple <$> last (Sample.flapping_calls ≫= λ call,
                            option_list (get_app_info call.1 call.2)) ∧
    is_app_section <$> blocks msg = [false; true; true; false; true] ∧
    is_divider <$> blocks msg = [false; false; false; true; false].
Proof. eexists. split; [reflexivity|]. by vm_compute. Qed.

(** ** The title *)

Lemma emoji_of_new ups :
  emoji_of ups = icon_new ↔ ∃ r, r ∈ ups ∧ kind_of r = NEW_RELEASE.
Proof.
  unfold emoji_of.
  destruct (filter (λ app, is_new app = true) ups) as [|r k] eqn:Hf.
  - split; [discriminate|]. intros (r & Hr & Hk).
    assert (is_new r = true) as Hnew
      by (unfold kind_of in Hk; by destruct (is_new r)).
    by destruct (filter_nil_not_elem_of _ _ r Hf Hnew).
  - split; [|done]. intros _. exists r.
    assert (r ∈ filter (λ app, is_new app = true) ups)
      as [Hnew ?]%list_elem_of_filter by (rewrite Hf; left).
    split; [done|]. unfold kind_of. by rewrite Hnew.
Qed.

Lemma emoji_of_phone ups :
  emoji_of ups = icon_phone ↔ ∀ r, r ∈ ups → kind_of r = FIRST_OBSERVATION.
Proof.
  unfold emoji_of.
  destruct (filter (λ app, is_new app = true) ups) as [|r k] eqn:Hf.
  - split; [|done]. intros _ r Hr. unfold kind_of.
    destruct (is_new r) eqn:Hnew; [|done].
    by destruct (filter_nil_not_elem_of _ _ r Hf Hnew).
  - split; [discriminate|]. intros Hall.
    assert (r ∈ filter (λ app, is_new app = true) ups)
      as [Hnew Hr]%list_elem_of_filter by (rewrite Hf; left).
    specialize (Hall r Hr). unfold kind_of in Hall. by rewrite Hnew in Hall.
Qed.

Lemma emoji_of_length ups : length (emoji_of ups) = 4.
Proof. unfold emoji_of. by case_match. Qed.

Lemma title_of_count ups1 ups2 :
  title_of ups1 = title_of ups2 → length ups1 = length ups2.
Proof.
  unfold title_of. intros H.
  apply app_inj_1 in H as [_ H];
    [|by rewrite !emoji_of_length].
  apply app_inv_head, app_inv_tail in H. by apply str_of_nat_inj.
Qed.

(** C8, refuted as stated.  A list holding a FIRST_OBSERVATION next to a
    NEW_RELEASE and a list of NEW_RELEASE records only get the same icon. *)
Lemma C8_icon_blind_to_first_observation :
  ¬ (∀ ups1 ups2 : list AppInfo,
       ups1 ≠ [] → ups2 ≠ [] →
       (∃ r, r ∈ ups1 ∧ kind_of r = FIRST_OBSERVATION) →
       (∀ r, r ∈ ups2 → kind_of r = NEW_RELEASE) →
       emoji_of ups1 ≠ emoji_of ups2).
Proof.
  intros Hclaim.
  apply (Hclaim [Sample.first_seen; Sample.released_again]
                [Sample.released_again]); [done|done| | |reflexivity].
  - exists Sample.first_seen. split; [left|reflexivity].
  - by intros r ->%list_elem_of_singleton.
Qed.

(** C8, amended.  The title, which is the text of the message and of its
    header block, is an icon followed by the count of the records; two lists
    with the same title have the same length.  The icon is the new-release
    icon exactly when some record is a NEW_RELEASE and the phone icon exactly
    when every record is a FIRST_OBSERVATION; the two icons differ. *)
Theorem C8_title_counts_and_marks_new_release chan ups :
  text (message_of chan ups) = title_of ups ∧
  head (blocks (message_of chan ups))
    = Some (Header (PlainText (title_of ups))) ∧
  title_of ups = emoji_of ups ++ lit " Competitor App Updates ("
                   ++ str_of_nat (length ups) ++ lit ")" ∧
  (∀ ups', title_of ups' = title_of ups → length ups' = length ups) ∧
  (emoji_of ups = icon_new ↔ ∃ r, r ∈ ups ∧ kind_of r = NEW_RELEASE) ∧
  (emoji_of ups = icon_phone
     ↔ ∀ r, r ∈ ups → kind_of r = FIRST_OBSERVATION) ∧
  icon_new ≠ icon_phone.
Proof.
  split_and!.
  - done.
  - simpl. by rewrite blocks_of_layout.
  - done.
  - intros ups'. apply title_of_count.
  - apply emoji_of_new.
  - apply emoji_of_phone.
  - discriminate.
Qed.

(** ** More on [get_app_info] *)

(** Of a lookup document that counts results, only the first result is
    read: the other results and the value of the count do not matter.  The
    record carries the id that was asked for and the fields of that result,
    empty notes when the result has none, and no flag. *)
Theorem get_app_info_reads_first_result id c c' d rest rest' :
  default 0%N c ≠ 0%N →
  default 0%N c' ≠ 0%N →
  get_app_info id (LookupJson c (d :: rest))
    = get_app_info id (LookupJson c' (d :: rest')) ∧
  ∀ info, get_app_info id (LookupJson c (d :: rest)) = Some info →
    app_id info = id ∧
    trackName d = Some (name info) ∧
    artistName d = Some (developer info) ∧
    version d = Some (current_version info) ∧
    currentVersionReleaseDate d = DateParsed (last_updated info) ∧
    trackViewUrl d = Some (store_url info) ∧
    release_notes info = default [] (releaseNotes d) ∧
    _is_new_release info = None.
Proof.
  intros Hc Hc'. simpl. rewrite !bool_decide_false by done. split; [done|].
  intros info Hinfo.
  destruct d as [[n|] [a|] [v|] [| |t] [u|] notes]; simplify_eq/=; done.
Qed.

(** ** More on one cycle *)

Lemma check_for_updates_posted slack chan calls s :
  posted (check_for_updates slack chan calls s).2
  = posted s ++ match changes_from (last_versions s) calls with
                | [] => []
                | _ => [message_of chan
                          (changes_from (last_versions s) calls)]
                end.
Proof.
  rewrite check_for_updates_run. simpl.
  destruct (changes_from (last_versions s) calls); simpl.
  - by rewrite app_nil_r.
  - by destruct slack.
Qed.


(** A cycle hands at most one message to the Slack client, after the
    messages handed over before: none when it found no change, and otherwise
    the consolidated message of all its records. *)
Theorem cycle_posts_one_consolidated_message slack chan calls s :
  ∃ ups s1, collect_updates calls s = (Returned ups, s1) ∧
    posted (check_for_updates slack chan calls s).2
      = posted s ++ match ups with
                    | [] => []
                    | _ => [message_of chan ups]
                    end.
Proof.
  eexists _, _. split; [apply collect_updates_run|].
  apply check_for_updates_posted.
Qed.

(** [check_for_updates] raises only when it found changes and the Slack
    client raised something else than [SlackApiError]; lookup failures and
    Slack API errors never leave it. *)
Theorem cycle_raises_only_on_other_slack_error slack chan calls s e :
  ∃ ups s1, collect_updates calls s = (Returned ups, s1) ∧
    ((check_for_updates slack chan calls s).1 = Raised e
       ↔ e = OtherError ∧ slack = PostOtherError ∧ ups ≠ []).
Proof.
  eexists _, _. split; [apply collect_updates_run|].
  rewrite check_for_updates_run. simpl.
  destruct (changes_from (last_versions s) calls); simpl.
  - split; [done|]. by intros (_ & _ & ?).
  - destruct slack; simpl; split; try done; try by intros (_ & ? & _).
    + by intros [= <-].
    + by intros (-> & _ & _).
Qed.




(** ** The legacy notifier *)

(** [send_notification] posts the consolidated message of the single app:
    a title counting one update, the blocks of the app and no divider.  Its
    argument [is_new_release] has no effect: the icon follows the attribute
    carried by the object, so a record fresh from [get_app_info] gets the
    phone icon whatever the argument says. *)
Theorem send_notification_ignores_its_flag slack chan a flag s :
  ∃ msg,
    posted (send_notification slack chan a flag s).2 = posted s ++ [msg] ∧
    send_notification slack chan a flag s
      = send_notification slack chan a (negb flag) s ∧
    text msg = (if is_new a then icon_new else icon_phone)
                 ++ lit " Competitor App Updates (1)" ∧
    blocks msg = Header (PlainText (text msg)) :: sections_of a ∧
    (∀ id reply, get_app_info id reply = Some a →
       text msg = icon_phone ++ lit " Competitor App Updates (1)").
Proof.
  exists (message_of chan [a]).
  assert (Htitle : title_of [a] = (if is_new a then icon_new else icon_phone)
                                    ++ lit " Competitor App Updates (1)").
  { unfold title_of, emoji_of. rewrite filter_cons, filter_nil.
    destruct (is_new a) eqn:Hnew.
    - by rewrite decide_True by done.
    - by rewrite decide_False by done. }
  split_and!.
  - unfold send_notification. rewrite send_consolidated_notification_run.
    by destruct slack.
  - done.
  - done.
  - unfold message_of. cbn [text blocks].
    rewrite blocks_of_layout. cbn [last default mbind list_bind].
    unfold AppInfo_ne. rewrite bool_decide_false by auto.
    by rewrite !app_nil_r.
  - intros id reply [_ Hflag]%get_app_info_app_id.
    unfold message_of. cbn [text]. rewrite Htitle.
    unfold is_new. by rewrite Hflag.
Qed.

(** ** A first run *)

Lemma changes_from_fresh vs calls :
  NoDup calls.*1 →
  (∀ call, call ∈ calls → vs !! call.1 = None) →
  changes_from vs calls =
  omap (λ call, (λ info, set_is_new_release info false)
                  <$> get_app_info call.1 call.2) calls.
Proof.
  revert vs. induction calls as [|call calls IH]; intros vs Hdup Hnone;
    [done|].
  rewrite fmap_cons in Hdup. apply NoDup_cons in Hdup as [Hnotin Hdup].
  assert (Hvs : vs !! call.1 = None) by (apply Hnone; left).
  cbn [changes_from]. rewrite IH; [|done|].
  - unfold change_of. rewrite Hvs.
    destruct (get_app_info call.1 call.2) as [info|] eqn:Hget;
      cbn [omap list_omap]; rewrite Hget; by simpl.
  - intros c Hc. rewrite versions_after_other; [apply Hnone; by right|].
    intros Heq. apply Hnotin. rewrite Heq. by apply list_elem_of_fmap_2.
Qed.

(** A monitor that starts without a readable [last_check.json] holds an
    empty dictionary.  Over distinct tracked ids its first cycle then builds
    one record for every lookup that succeeds, in order, each of them a
    FIRST_OBSERVATION, and the title bears the phone icon. *)
Theorem first_run_announces_every_found_app w log calls :
  (∀ versions, last_check w ≠ FileJson versions) →
  NoDup calls.*1 →
  ∃ ups s1,
    collect_updates calls (boot w log) = (Returned ups, s1) ∧
    ups = omap (λ call, (λ info, set_is_new_release info false)
                          <$> get_app_info call.1 call.2) calls ∧
    (∀ r, r ∈ ups → kind_of r = FIRST_OBSERVATION) ∧
    emoji_of ups = icon_phone.
Proof.
  intros Hfile Hdup.
  assert (Hempty : last_versions (boot w log) = ∅).
  { unfold boot. simpl. destruct (last_check w) as [| |m]; [done|done|].
    by destruct (Hfile m). }
  eexists _, _. split; [apply collect_updates_run|].
  rewrite Hempty, changes_from_fresh by (done || by intros). split; [done|].
  assert (Hall : ∀ r,
    r ∈ omap (λ call, (λ info, set_is_new_release info false)
                        <$> get_app_info call.1 call.2) calls →
    kind_of r = FIRST_OBSERVATION).
  { intros r (call & _ & Hr)%list_elem_of_omap.
    destruct (get_app_info call.1 call.2); by simplify_eq/=. }
  split; [done|]. by apply emoji_of_phone.
Qed.

Lemma first_run_announces_every_found_app_witness :
  ∃ ups s1,
    collect_updates Sample.mixed_calls (boot SampleRun.unreadable_store [])
      = (Returned ups, s1) ∧
    app_id <$> ups = [Sample.id_A; Sample.id_B] ∧
    emoji_of ups = icon_phone.
Proof.
  destruct (first_run_announces_every_found_app SampleRun.unreadable_store []
              Sample.mixed_calls) as (ups & s1 & Hrun & Hups & _ & Hicon).
  - intros versions. discriminate.
  - apply (bool_decide_unpack _). by vm_compute.
  - exists ups, s1. split; [exact Hrun|]. split; [|exact Hicon].
    rewrite Hups. reflexivity.
Defined.

(** ** Runs of several cycles *)

Lemma calls_of_ids competitors r : (calls_of competitors r).*1 = competitors.
Proof.
  unfold calls_of. rewrite fmap_imap.
  rewrite (imap_ext _ (const id)) by done.
  by rewrite imap_const, list_fmap_id.
Qed.

Lemma calls_of_elem competitors r call :
  call ∈ calls_of competitors r →
  ∃ i, competitors !! i = Some call.1 ∧ call.2 = lookup_answer r i.
Proof.
  unfold calls_of. intros (i & id & -> & Hi)%elem_of_lookup_imap. eauto.
Qed.

Lemma run_cycles_cons chan competitors r rounds s :
  run_cycles chan competitors (r :: rounds) s =
  match check_for_updates (slack_answer r) chan (calls_of competitors r) s with
  | (Returned _, s') => run_cycles chan competitors rounds s'
  | (Raised e, s') => (Raised e, s')
  end.
Proof. reflexivity. Qed.



Lemma run_cycles_settled chan competitors rounds (ver : pystr → pystr) t :
  (∀ id, id ∈ competitors → last_versions t !! id = Some (ver id)) →
  (∀ r i id, r ∈ rounds → competitors !! i = Some id →
     ∃ info, get_app_info id (lookup_answer r i) = Some info
             ∧ current_version info = ver id) →
  run_cycles chan competitors rounds t = (Returned (), t).
Proof.
  intros Hsettled. induction rounds as [|r rounds IH]; intros Hall; [done|].
  rewrite run_cycles_cons.
  assert (Hnone : changes_from (last_versions t) (calls_of competitors r)
                  = []).
  { apply changes_from_all_settled.
    intros call (i & Hi & Hreply)%calls_of_elem.
    destruct (Hall r i call.1) as (info & Hget & Hver); [left|done|].
    exists info. rewrite Hreply. split; [done|].
    rewrite Hver. apply Hsettled. by eapply list_elem_of_lookup_2. }
  rewrite check_for_updates_run. simpl. rewrite Hnone.
  apply IH. intros r' i id Hr'. apply Hall. by right.
Qed.

(** When every lookup of a run succeeds and reports, cycle after cycle,
    one and the same version for each tracked id, the run is its first
    cycle: the later cycles find nothing, post nothing and write nothing,
    also when the delivery of the first cycle failed. *)
Theorem steady_run_is_its_first_cycle chan competitors r rounds
    (ver : pystr → pystr) s :
  (∀ r' i id, r' ∈ r :: rounds → competitors !! i = Some id →
     ∃ info, get_app_info id (lookup_answer r' i) = Some info
             ∧ current_version info = ver id) →
  run_cycles chan competitors (r :: rounds) s
  = check_for_updates (slack_answer r) chan (calls_of competitors r) s.
Proof.
  intros Hall. rewrite run_cycles_cons.
  pose proof (check_for_updates_versions (slack_answer r) chan
                (calls_of competitors r) s) as Hvs.
  destruct (check_for_updates (slack_answer r) chan
              (calls_of competitors r) s) as [[[]|e] t]; [|done].
  simpl in Hvs. apply (run_cycles_settled _ _ _ ver).
  - intros id Hid. rewrite Hvs. apply versions_from_all_found.
    + intros call (i & Hi & Hreply)%calls_of_elem.
      destruct (Hall r i call.1) as (info & Hget & Hver); [left|done|].
      exists info. by rewrite Hreply.
    + by rewrite calls_of_ids.
  - intros r' i id Hr'. apply Hall. by right.
Qed.

Lemma steady_run_is_its_first_cycle_witness :
  posted (run_cycles Sample.chan SampleRun.tracked
            [SampleRun.steady_round PostApiError;
             SampleRun.steady_round PostOk; SampleRun.steady_round PostOk]
            Sample.one_known).2
  = [message_of Sample.chan
       [Sample.app "Alpha" "1.1" (lit "Bug fixes") true;
        set_is_new_release
          {| app_id := Sample.id_B; name := lit "Beta";
             developer := lit "Acme Inc."; current_version := lit "2.3";
             last_updated := Sample.released;
             store_url := lit "https://apps.apple.com/app/id1";
             release_notes := lit "New look"; _is_new_release := None |}
          false]].
Proof.
  rewrite (steady_run_is_its_first_cycle Sample.chan SampleRun.tracked
             (SampleRun.steady_round PostApiError)
             [SampleRun.steady_round PostOk; SampleRun.steady_round PostOk]
             Sample.steady_version Sample.one_known).
  - reflexivity.
  - intros r' i id Hr' Hi.
    assert (lookup_answer r' = lookup_answer (SampleRun.steady_round PostOk))
      as Hr.
    { repeat (apply elem_of_cons in Hr' as [->|Hr']; [reflexivity|]).
      by apply elem_of_nil in Hr'. }
    rewrite Hr. destruct i as [|[|i]]; simplify_eq/=.
    + eexists. split; reflexivity.
    + eexists. split; reflexivity.
Defined.

(** [main] does nothing when the token or the channel is unset or empty,
    and nothing either when the competitors file is unreadable or names no
    id: no cycle of the run then looks up an app, posts or writes. *)
Theorem main_is_silent_without_credentials_or_ids w log rounds :
  unset (SLACK_BOT_TOKEN w) = true ∨ unset (SLACK_CHANNEL w) = true
  ∨ competitors_file w = FileUnreadable
  ∨ (∃ data, competitors_file w = FileJson data
             ∧ (app_ids data = None ∨ app_ids data = Some [])) →
  main w log rounds = (Returned (), boot w log).
Proof.
  intros Hcase. unfold main.
  destruct (unset (SLACK_BOT_TOKEN w)); [done|].
  destruct (unset (SLACK_CHANNEL w)); [done|].
  assert (load_competitors (competitors_file w) = []) as ->.
  { destruct Hcase as [?|[?|[->|(data & -> & [Hd|Hd])]]];
      try done; simpl; by rewrite Hd. }
  generalize (boot w log). intros s.
  induction rounds as [|r rounds IH]; [done|].
  by rewrite run_cycles_cons.
Qed.

Lemma main_is_silent_without_credentials_or_ids_witness :
  main SampleRun.no_token []
    [SampleRun.steady_round PostOk; SampleRun.steady_round PostOk]
  = (Returned (), boot SampleRun.no_token []).
Proof.
  apply main_is_silent_without_credentials_or_ids. left. reflexivity.
Defined.

(** ** Sample runs of the properties above *)

Lemma get_app_info_reads_first_result_witness :
  ∃ info,
    get_app_info Sample.id_B
      (LookupJson (Some 2%N)
         [ {| trackName := Some (lit "Alpha");
              artistName := Some (lit "Acme Inc.");
              version := Some (lit "1.1");
              currentVersionReleaseDate := DateParsed Sample.released;
              trackViewUrl := Some (lit "https://apps.apple.com/app/id1");
              releaseNotes := None |};
           {| trackName := None; artistName := None; version := None;
              currentVersionReleaseDate := DateInvalid;
              trackViewUrl := None; releaseNotes := None |} ])
      = Some info
    ∧ app_id info = Sample.id_B ∧ release_notes info = [].
Proof.
  eexists. split; [reflexivity|].
  destruct (get_app_info_reads_first_result Sample.id_B (Some 2%N)
              (Some 1%N)
              {| trackName := Some (lit "Alpha");
                 artistName := Some (lit "Acme Inc.");
                 version := Some (lit "1.1");
                 currentVersionReleaseDate := DateParsed Sample.released;
                 trackViewUrl := Some (lit "https://apps.apple.com/app/id1");
                 releaseNotes := None |}
              [ {| trackName := None; artistName := None; version := None;
                   currentVersionReleaseDate := DateInvalid;
                   trackViewUrl := None; releaseNotes := None |} ] [])
    as [_ Hinfo]; [discriminate|discriminate|].
  destruct (Hinfo _ eq_refl) as (Hid & _ & _ & _ & _ & _ & Hnotes & _).
  split; [exact Hid|exact Hnotes].
Defined.




(** ** More on the layout of the message *)

Lemma filter_dividers (z : AppInfo) l :
  filter (λ b, is_divider b = true)
    (a ← l; sections_of a ++ (if AppInfo_ne a z then [Divider] else []))
  = (λ _, Divider) <$> filter (λ a, astuple a ≠ astuple z) l.
Proof.
  induction l as [|a l IH]; [done|].
  rewrite bind_cons, !filter_app, IH. unfold sections_of, note_blocks.
  rewrite filter_cons_False by done.
  assert (filter (λ b, is_divider b = true)
            (if bool_decide (strip (release_notes a) ≠ [])
             then [notes_section a] else []) = []) as ->
    by (by case_bool_decide).
  unfold AppInfo_ne. case_bool_decide.
  - by rewrite (filter_cons_True _ a l) by done.
  - by rewrite (filter_cons_False _ a l) by auto.
Qed.

Lemma blocks_of_snoc init z :
  blocks_of (init ++ [z]) =
  Header (PlainText (title_of (init ++ [z])))
    :: (a ← init; sections_of a
                    ++ (if AppInfo_ne a z then [Divider] else []))
    ++ sections_of z.
Proof.
  rewrite blocks_of_layout, last_snoc. simpl. f_equal.
  rewrite bind_app. f_equal.
  simpl. unfold AppInfo_ne. rewrite bool_decide_false by auto.
  by rewrite !app_nil_r.
Qed.

(** The dividers of the message: one for each record before the last that
    differs, as a dataclass value, from the last record, and none else.
    Records equal to the last one are followed by no divider. *)
Theorem dividers_follow_records_unlike_the_last init z :
  filter (λ b, is_divider b = true) (blocks_of (init ++ [z]))
  = (λ _, Divider) <$> filter (λ a, astuple a ≠ astuple z) init.
Proof.
  rewrite blocks_of_snoc, filter_cons_False by done.
  rewrite filter_app, filter_dividers.
  assert (filter (λ b, is_divider b = true) (sections_of z) = []) as ->.
  { unfold sections_of, note_blocks. rewrite filter_cons_False by done.
    by case_bool_decide. }
  by rewrite app_nil_r.
Qed.

Lemma blocks_of_separated_witness :
  blocks_of [Sample.first_seen; Sample.released_again]
  = [ Header (PlainText (title_of [Sample.first_seen;
                                   Sample.released_again]));
      app_section Sample.first_seen; Divider;
      app_section Sample.released_again ].
Proof.
  change [Sample.first_seen; Sample.released_again]
    with ([Sample.first_seen] ++ [Sample.released_again]).
  rewrite (blocks_of_separated [Sample.first_seen] Sample.released_again).
  - reflexivity.
  - intros a ->%list_elem_of_singleton. discriminate.
Defined.

Lemma expected_notes_length notes : length (expected_notes notes) ≤ 523.
Proof.
  unfold expected_notes. rewrite !length_app.
  assert (length (if decide (500 < length notes)
                  then take 500 notes ++ lit "..." else notes) ≤ 503).
  { case_decide; [|lia]. rewrite length_app, length_take.
    change (length (lit "...")) with 3. lia. }
  change (length (lit "*What's New:*")) with 13.
  change (length newline) with 1.
  change (length (lit "```")) with 3. lia.
Qed.

Lemma bind_length_le {A B} (f : A → list B) (n : nat) l :
  (∀ a, length (f a) ≤ n) → length (l ≫= f) ≤ n * length l.
Proof.
  intros Hf. induction l as [|a l IH]; [simpl; lia|].
  rewrite bind_cons, length_app. specialize (Hf a). simpl. lia.
Qed.

(** The size of the message: for n records at most 3n blocks, and in every
    release-notes block at most 523 characters. *)
Theorem message_size_is_bounded chan ups :
  ups ≠ [] →
  length (blocks (message_of chan ups)) ≤ 3 * length ups ∧
  ∀ t, t ∈ omap notes_text (blocks (message_of chan ups)) →
       length t ≤ 523.
Proof.
  intros Hne. cbn [message_of blocks]. split.
  - destruct ups as [|z init _] using rev_ind; [done|].
    rewrite blocks_of_snoc, length_cons, !length_app.
    change (length [z]) with 1.
    assert (length (init ≫= λ a, sections_of a
                      ++ (if AppInfo_ne a z then [Divider] else []))
            ≤ 3 * length init) as Hinit.
    { apply bind_length_le. intros a. rewrite length_app.
      unfold sections_of, note_blocks.
      case_bool_decide; destruct (AppInfo_ne a z); simpl; lia. }
    assert (length (sections_of z) ≤ 2)
      by (unfold sections_of, note_blocks; case_bool_decide; simpl; lia).
    lia.
  - intros t. rewrite blocks_of_layout. cbn [omap list_omap notes_text].
    rewrite (omap_notes_text_blocks (λ a, default a (last ups))).
    intros (a & -> & _)%list_elem_of_fmap. apply expected_notes_length.
Qed.

Lemma message_size_is_bounded_witness :
  length (blocks (message_of Sample.chan
                    [ Sample.app "Alpha" "1.1" Sample.long_notes true;
                      Sample.app "Beta" "2.0" (lit "Bug fixes") false ]))
    ≤ 6.
Proof.
  apply (message_size_is_bounded Sample.chan
           [ Sample.app "Alpha" "1.1" Sample.long_notes true;
             Sample.app "Beta" "2.0" (lit "Bug fixes") false ]).
  discriminate.
Defined.

(** ** The id checker of [find_app_id.py] and the bot *)

(** Every app the bot can read passes the checker, with the same name,
    developer, version and id.  The checker accepts more: an app it accepts
    is skipped by the bot exactly when the first result has no release date
    that parses or no store link. *)
Theorem checker_accepts_what_the_bot_reads id reply :
  (∀ info, get_app_info id reply = Some info →
     FindAppId.get_app_info id reply
     = Some {| FindAppId.d_name := name info;
               FindAppId.d_developer := developer info;
               FindAppId.d_version := current_version info;
               FindAppId.d_app_id := id |}) ∧
  (∀ found, FindAppId.get_app_info id reply = Some found →
     FindAppId.d_app_id found = id ∧
     (get_app_info id reply = None ↔
      ∃ c d rest, reply = LookupJson c (d :: rest) ∧
        ((∀ t, currentVersionReleaseDate d ≠ DateParsed t)
         ∨ trackViewUrl d = None))).
Proof.
  destruct reply as [|c [|d rest]]; simpl.
  - done.
  - by case_bool_decide.
  - case_bool_decide; [done|].
    destruct d as [[n|] [a|] [v|] [| |t] [u|] notes]; simpl;
      (split; [intros info ?; by simplify_eq/=|]);
      intros found ?; simplify_eq/=; (split; [done|]).
    all: try (split; [done|];
              intros (? & ? & ? & [= <- <- <-] & [Hd|[=]]);
              by destruct (Hd t)).
    all: split; [intros _|done]; eexists _, _, _; (split; [done|]); simpl.
    all: try (by right).
    all: by left.
Qed.

(** ** [search_apps_by_name] *)

(** The search returns at most five dictionaries.  It reads the first five
    results only; it returns one dictionary for each of them, in order, when
    they all have their four keys, and nothing at all when one of them
    lacks a key.  The app id is the decimal text of [trackId]. *)
Theorem search_returns_first_five_or_nothing app_name reply :
  length (FindAppId.search_apps_by_name app_name reply) ≤ 5 ∧
  ∀ results, reply = FindAppId.SearchJson (Some results) →
    FindAppId.search_apps_by_name app_name reply
      = FindAppId.search_apps_by_name app_name
          (FindAppId.SearchJson (Some (take 5 results))) ∧
    ((∀ app, app ∈ take 5 results → is_Some (FindAppId.search_entry app)) →
     Some <$> FindAppId.search_apps_by_name app_name reply
       = FindAppId.search_entry <$> take 5 results) ∧
    ((∃ app, app ∈ take 5 results ∧ FindAppId.search_entry app = None) →
     FindAppId.search_apps_by_name app_name reply = []) ∧
    (∀ found, found ∈ FindAppId.search_apps_by_name app_name reply →
     ∃ app i, app ∈ take 5 results
              ∧ FindAppId.item_trackId app = Some i
              ∧ FindAppId.d_app_id found = str_of_N i).
Proof.
  assert (Hmap : ∀ (l : list FindAppId.search_item) k,
            mapM FindAppId.search_entry l = Some k →
            Some <$> k = FindAppId.search_entry <$> l).
  { intros l k H%mapM_Some. induction H as [|x y l k Hxy _ IH]; [done|].
    by rewrite !fmap_cons, IH, Hxy. }
  split.
  - destruct reply as [|[results|]]; simpl; [lia| |lia].
    destruct (mapM _ _) as [k|] eqn:Hk; simpl; [|lia].
    apply length_mapM in Hk. rewrite <-Hk, length_take. lia.
  - intros results ->. simpl. split_and!.
    + by rewrite take_take.
    + intros Hall.
      destruct (mapM _ _) as [k|] eqn:Hk; simpl; [by apply Hmap|].
      apply mapM_None in Hk. apply Exists_exists in Hk as (x & Hx & Hnone).
      destruct (Hall x Hx) as [? ?]. congruence.
    + intros (app & Happ & Hnone).
      rewrite (proj2 (mapM_None _ _)); [done|].
      apply Exists_exists. eauto.
    + intros found.
      destruct (mapM _ _) as [k|] eqn:Hk; simpl;
        [|by intros ?%elem_of_nil].
      intros (j & Hj)%list_elem_of_lookup. apply mapM_Some in Hk.
      destruct (Forall2_lookup_r _ _ _ _ _ Hk Hj) as (app & Happ & Hentry).
      exists app. unfold FindAppId.search_entry in Hentry.
      destruct (FindAppId.item_trackName app), (FindAppId.item_artistName app),
        (FindAppId.item_trackId app) as [i|], (FindAppId.item_version app);
        simplify_eq/=.
      exists i. split; [by eapply list_elem_of_lookup_2|done].
Qed.

(** An app without release date passes the checker and is skipped by the
    bot. *)
Lemma checker_accepts_what_the_bot_reads_witness :
  is_Some (FindAppId.get_app_info Sample.id_A SampleRun.undated) ∧
  get_app_info Sample.id_A SampleRun.undated = None.
Proof.
  split; [by eexists|].
  destruct (checker_accepts_what_the_bot_reads Sample.id_A SampleRun.undated)
    as [_ Hmore].
  destruct (Hmore _ eq_refl) as [_ Hskip]. apply Hskip.
  eexists _, _, _. split; [reflexivity|]. left. discriminate.
Defined.

(** A sixth result without name is not read; the same result among the
    first five empties the answer. *)
Lemma search_returns_first_five_or_nothing_witness :
  FindAppId.d_app_id
    <$> FindAppId.search_apps_by_name (lit "Alpha")
          (FindAppId.SearchJson (Some SampleRun.six_results))
    = [lit "1"; lit "2"; lit "3"; lit "4"; lit "5"] ∧
  FindAppId.search_apps_by_name (lit "Alpha")
    (FindAppId.SearchJson (Some (drop 1 SampleRun.six_results))) = [].
Proof.
  split; [reflexivity|].
  destruct (search_returns_first_five_or_nothing (lit "Alpha")
              (FindAppId.SearchJson (Some (drop 1 SampleRun.six_results))))
    as [_ Hres].
  destruct (Hres _ eq_refl) as (_ & _ & Hnone & _). apply Hnone.
  exists SampleRun.nameless. split; [|reflexivity].
  vm_compute. do 4 right. left.
Defined.

Lemma blocks_of_last_not_divider_witness :
  last (blocks_of Sample.twins) ≠ Some Divider.
Proof.
  apply (blocks_of_last_not_divider Sample.twins). discriminate.
Defined.
